(** * p5-fourier: the epicycle model of [src/sketch.ts]

    A shallow embedding of the selectable-waveform variant of the sketch
    (the second program of [src/sketch.ts], from [const SCALE = 69] on)
    and the properties of its mathematical core: the waveform catalogue,
    the recursive epicycle builder, the radial lines derived from it and
    the bounded trajectory kept across frames.

    Conventions of the embedding.
    - A JavaScript [number] that holds a real quantity (time, amplitudes,
      coordinates) is a real number of [R]; rounding of IEEE doubles is not
      modelled.  A [number] that the code only uses as an integer (an
      array length, an octave, the harmonic index [k], the octave count
      [n]) is a [nat] or a [Z] and is injected into [R] where the code
      mixes both.
    - Arrays are lists; [push] appends, [unshift] conses, [pop] removes the
      last element.  Reading an array outside its bounds yields
      [undefined], and reading a field of [undefined] throws: such reads
      are [option]-valued and a throw is [None].
    - [epicyclesRecurse] is recursive with an exit test that need not ever
      hold, so it takes a bound [fuel] on the depth of the recursion, as
      the call stack of the engine does; running out of it is [None].
    - Calls to the p5 drawing primitives have no effect on the values
      studied here and are left out of [draw]; the drawing functions of
      the sketch are modelled apart, as the lists of commands they issue.
    - The first program of [src/sketch.ts] and the class-based sketch of
      [src/index.ts] are embedded in the modules [V1] and [Index], and
      related to the selectable-waveform variant. *)

From Stdlib Require Import Reals Lra ZArith Lia.
From stdpp Require Import gmap strings list.

(** ** Numbers *)

(** Truncation toward zero, the first step of the ToInt32 conversion. *)
Definition Rtrunc (x : R) : Z :=
  if Rle_dec 0 x then Zfloor x else Zceil x.

(** Reduction of an integer modulo 2^32 into the signed 32-bit range. *)
Definition wrap32 (z : Z) : Z :=
  let m := (z mod 2 ^ 32)%Z in
  if (m <? 2 ^ 31)%Z then m else (m - 2 ^ 32)%Z.

(** The signed 32-bit range. *)
Definition int32 (z : Z) : Prop := (- 2 ^ 31 <= z < 2 ^ 31)%Z.

(** ToInt32 of a (finite) number. *)
Definition ToInt32 (x : R) : Z := wrap32 (Rtrunc x).

(** The operator [a ^ b] of JavaScript: bitwise exclusive or of the two
    operands converted by ToInt32; the result is again a number. *)
Definition js_xor (a b : R) : R := IZR (Z.lxor (ToInt32 a) (ToInt32 b)).

(** The operator [a % b] on numbers: the remainder has the sign of [a]. *)
Definition js_rem (a b : R) : R := (a - b * IZR (Rtrunc (a / b)))%R.

(** Reading [l[i]] for a possibly negative index. *)
Definition js_index {A} (l : list A) (i : Z) : option A :=
  if (i <? 0)%Z then None else l !! Z.to_nat i.

Module p5.
(** The two coordinates of a [p5.Vector] the sketch uses. *)
Record Vector : Type := createVector { x : R; y : R }.
End p5.

Definition TWO_PI : R := (2 * PI)%R.

(** ** Constants *)

Definition SCALE : R := 69%R.
Definition DT : R := 0.0125%R.

(** ** Math domain *)

Record Wave : Type := mkWave {
  amplitude : R;
  angularVelocity : R;
  initialOffset : R
}.

Definition Octave : Type := nat.

Definition WaveForm : Type := Octave -> Wave.

Definition squareWave : WaveForm := fun o =>
  let k : Z := (2 * Z.of_nat o + 1)%Z in
  {| amplitude := (SCALE * 4 / (IZR k * PI))%R;
     angularVelocity := IZR k;
     initialOffset := 0%R |}.

Definition sawWave : WaveForm := fun o =>
  let k : Z := (Z.of_nat o + 1)%Z in
  let sign : Z := if (Z.rem k 2 =? 0)%Z then 1%Z else (-1)%Z in
  {| amplitude := (SCALE * 2 / (IZR sign * IZR k * PI))%R;
     angularVelocity := (2 * IZR k)%R;
     initialOffset := 0%R |}.

Definition lolWave : WaveForm := fun o =>
  let k : Z := (2 * (Z.of_nat o + 1))%Z in
  {| amplitude := (SCALE * 4 / (IZR k * PI))%R;
     angularVelocity := js_xor (IZR k) (js_xor 2.71%R (IZR k));
     initialOffset := 0%R |}.

(** The map built by [waveForm] at each call. *)
Definition wfs : gmap string WaveForm :=
  <["sin" := lolWave]> (<["sawtooth" := sawWave]> (<["square" := squareWave]> ∅)).

Definition waveForm (name : string) : WaveForm :=
  match wfs !! name with
  | Some wf => wf
  | None => squareWave
  end.

(** ** Animation domain *)

Definition Time : Type := R.

Definition incrementTime (t : Time) (dt : R) : Time := js_rem (t + dt)%R TWO_PI.

Record Epicycle : Type := mkEpicycle {
  pos : p5.Vector;
  wave : Wave
}.

Definition nextEpicylePos (t : Time) (e : Epicycle) : p5.Vector :=
  let theta := (t * angularVelocity (wave e) + initialOffset (wave e))%R in
  p5.createVector
    (amplitude (wave e) * cos (- theta) + p5.x (pos e))%R
    (amplitude (wave e) * sin (- theta) + p5.y (pos e))%R.

(** The recursive builder.  The exit test comes first, so a call that
    meets it returns whatever fuel is left. *)
Fixpoint epicyclesRecurse (fuel : nat) (t : Time) (n : Z) (wf : WaveForm)
    (pos : p5.Vector) (epis : list Epicycle) : option (list Epicycle) :=
  if (Z.of_nat (length epis) =? n)%Z then Some epis
  else match fuel with
       | O => None
       | S fuel' =>
           let o : Octave := length epis in
           let epi := {| pos := pos; wave := wf o |} in
           epicyclesRecurse fuel' t n wf (nextEpicylePos t epi) (epis ++ [epi])
       end.

Definition epicycles (fuel : nat) (t : Time) (n : Z) (wf : WaveForm)
    : option (list Epicycle) :=
  epicyclesRecurse fuel t n wf (p5.createVector 0 0) [].

Record RadialLine : Type := mkRadialLine {
  p1 : p5.Vector;
  p2 : p5.Vector
}.

(** One turn of the loop of [radialLines] at index [i]. *)
Definition radialStep (t : Time) (epis : list Epicycle)
    (acc : option (list RadialLine)) (i : nat) : option (list RadialLine) :=
  radials ← acc;
  ei ← epis !! i;
  end2 ← (if (Z.of_nat i =? Z.of_nat (length epis) - 1)%Z
          then Some (nextEpicylePos t ei)
          else pos <$> epis !! (i + 1));
  Some (radials ++ [{| p1 := pos ei; p2 := end2 |}]).

(** [for (let i = 0; i < epis.length; i++)]: neither [i] nor [epis] is
    written by the body, so the loop runs over the indices in order. *)
Definition radialLines (t : Time) (epis : list Epicycle)
    : option (list RadialLine) :=
  foldl (radialStep t epis) (Some []) (seq 0 (length epis)).

(** ** Trajectory *)

Definition Trajectory : Type := list p5.Vector.

(** [trajectory.unshift(p); if (trajectory.length > C) trajectory.pop()]. *)
Definition pushTrajectory (C : nat) (p : p5.Vector) (tr : Trajectory)
    : Trajectory :=
  let tr' := p :: tr in
  if C <? length tr' then removelast tr' else tr'.

(** The capacity written in [draw]. *)
Definition TRAJECTORY_MAX : nat := 512.

(** ** The frame *)

(** The variables that live across frames. *)
Record State : Type := mkState {
  time : Time;
  trajectory : Trajectory;
  wfPrevious : string
}.

(** The values after [setup]. *)
Definition setup : State :=
  {| time := 0%R; trajectory := []; wfPrevious := "square" |}.

(** One frame: [octaves] and [wf] are the values read from the slider and
    from the select.  A frame that throws (no radial line to read the
    pencil from) or whose builder does not return is [None]: the sketch
    stops there, and the state it leaves behind is not observed. *)
Definition draw (fuel : nat) (st : State) (octaves : Z) (wf : string)
    : option State :=
  let tr := if negb (String.eqb wf (wfPrevious st)) then [] else trajectory st in
  epis ← epicycles fuel (time st) octaves (waveForm wf);
  radials ← radialLines (time st) epis;
  lastRadial ← js_index radials (Z.of_nat (length radials) - 1);
  let lastPos := p2 lastRadial in
  Some {| time := incrementTime (time st) DT;
          trajectory := pushTrajectory TRAJECTORY_MAX lastPos tr;
          wfPrevious := wf |}.

(** ** Derived notions used to state the properties *)

(** The angular velocity of the third generator as the specification words
    it: the inner [^] read as a power, [k XOR (2.71 to the power k)]. *)
Definition powerVelocity (o : Octave) : R :=
  let k : Z := (2 * (Z.of_nat o + 1))%Z in
  js_xor (IZR k) (2.71 ^ Z.to_nat k)%R.

(** The rotation vector of octave [o] at time [t], by coordinate. *)
Definition rotX (t : Time) (wf : WaveForm) (o : Octave) : R :=
  (amplitude (wf o) * cos (- (t * angularVelocity (wf o) + initialOffset (wf o))))%R.

Definition rotY (t : Time) (wf : WaveForm) (o : Octave) : R :=
  (amplitude (wf o) * sin (- (t * angularVelocity (wf o) + initialOffset (wf o))))%R.

(** The [m] epicycles of octaves [o], [o+1], ... when octave [o] sits at
    [c]. *)
Fixpoint chainFrom (t : Time) (wf : WaveForm) (c : p5.Vector) (o : Octave)
    (m : nat) : list Epicycle :=
  match m with
  | O => []
  | S m' =>
      let epi := {| pos := c; wave := wf o |} in
      epi :: chainFrom t wf (nextEpicylePos t epi) (S o) m'
  end.

(** The point reached after the [m] octaves [o], [o+1], ... from [c]. *)
Fixpoint tipFrom (t : Time) (wf : WaveForm) (c : p5.Vector) (o : Octave)
    (m : nat) : p5.Vector :=
  match m with
  | O => c
  | S m' => tipFrom t wf (nextEpicylePos t {| pos := c; wave := wf o |}) (S o) m'
  end.

(** The radial lines of a chain, by recursion on the chain. *)
Fixpoint radialsOf (t : Time) (epis : list Epicycle) : list RadialLine :=
  match epis with
  | [] => []
  | e :: rest =>
      {| p1 := pos e;
         p2 := match rest with
               | [] => nextEpicylePos t e
               | e' :: _ => pos e'
               end |} :: radialsOf t rest
  end.

(** A run of pushes, oldest point first. *)
Definition pushAll (C : nat) (ps : list p5.Vector) (tr : Trajectory) : Trajectory :=
  foldl (fun tr p => pushTrajectory C p tr) tr ps.

(** The pencil position of a frame: [p2] of the last radial line. *)
Definition pencil (fuel : nat) (t : Time) (n : Z) (wf : WaveForm)
    : option p5.Vector :=
  epis ← epicycles fuel t n wf;
  radials ← radialLines t epis;
  p2 <$> js_index radials (Z.of_nat (length radials) - 1).

(** A run of frames from [st] on the successive values of the slider and
    of the select.  Next to the final state it yields the journal of the
    run, latest frame first: the identifier each frame ran under and the
    pencil position it computed. *)
Fixpoint frames (fuel : nat) (st : State) (ins : list (Z * string))
    (journal : list (string * p5.Vector))
    : option (list (string * p5.Vector) * State) :=
  match ins with
  | [] => Some (journal, st)
  | (octaves, wf) :: ins' =>
      tip ← pencil fuel (time st) octaves (waveForm wf);
      st' ← draw fuel st octaves wf;
      frames fuel st' ins' ((wf, tip) :: journal)
  end.

(** The trajectory holds the pencil positions of the [k] latest frames of
    the journal, for some [k], and all of them ran under the identifier
    that [wfPrevious] remembers. *)
Definition single_waveform (journal : list (string * p5.Vector)) (st : State)
    : Prop :=
  exists k : nat,
    trajectory st = (snd <$> take k journal) /\
    Forall (fun entry => entry.1 = wfPrevious st) (take k journal).

(** The values a frame may read from the slider, for a given fuel. *)
Definition playable (fuel : nat) (input : Z * string) : Prop :=
  (1 <= input.1 <= Z.of_nat fuel)%Z.

(** ** Drawing *)

(** The p5 primitives the drawing functions call, as the commands they
    issue, in order.  Colours are the arguments of [stroke] and [fill]. *)
Inductive Cmd : Type :=
  | noFill
  | stroke (colour : list Z)
  | fill (colour : list Z)
  | circle (cx cy d : R)
  | line (x1 y1 x2 y2 : R)
  | beginShape
  | vertex (vx vy : R)
  | endShape.

Definition WF_TRANSLATE : R := 250%R.

Definition drawEpicycle (e : Epicycle) : list Cmd :=
  [noFill; stroke [192; 66]%Z;
   circle (p5.x (pos e)) (p5.y (pos e)) (amplitude (wave e) * 2)%R].

Definition drawRadialLine (l : RadialLine) : list Cmd :=
  [stroke [255]%Z;
   line (p5.x (p1 l)) (p5.y (p1 l)) (p5.x (p2 l)) (p5.y (p2 l))].

Definition drawTrajectory (t : Trajectory) : list Cmd :=
  [noFill; stroke [192; 192]%Z; beginShape]
  ++ map (fun v => vertex (p5.x v) (p5.y v)) t
  ++ [endShape].

Definition drawProjectionLine (last : p5.Vector) : list Cmd :=
  [stroke [192; 56; 87; 205]%Z;
   line (p5.x last) (p5.y last) WF_TRANSLATE (p5.y last);
   fill [192; 56; 87; 205]%Z;
   circle WF_TRANSLATE (p5.y last) 4%R].

(** [for (let i in t) vertex(+i, t[i].y)]: the indices of the array, in
    increasing order. *)
Definition drawWaveForm (t : Trajectory) : list Cmd :=
  [noFill; stroke [46; 166; 204; 240]%Z; beginShape]
  ++ imap (fun i v => vertex (INR i) (p5.y v)) t
  ++ [endShape].

(** The vertices among some commands. *)
Definition vertices (cmds : list Cmd) : list (R * R) :=
  omap (fun c => match c with vertex vx vy => Some (vx, vy) | _ => None end) cmds.

(** ** The first variant of [src/sketch.ts]

    The first program of the file has the same constants, waves, radial
    lines and trajectory functions as the second; it differs in the exit
    test of the builder and in its fixed frame. *)

Module V1.

Definition oddI (i : nat) : Z := (2 * Z.of_nat i + 1)%Z.

Definition squareWave : WaveForm := fun o =>
  let k : Z := oddI o in
  {| amplitude := (SCALE * 4 / (IZR k * PI))%R;
     angularVelocity := IZR k;
     initialOffset := 0%R |}.

Fixpoint epicyclesRecurse (fuel : nat) (t : Time) (n : Z) (wf : WaveForm)
    (pos : p5.Vector) (epis : list Epicycle) : option (list Epicycle) :=
  if (Z.of_nat (length epis) - 1 =? n)%Z then Some epis
  else match fuel with
       | O => None
       | S fuel' =>
           let o : Octave := length epis in
           let epi := {| pos := pos; wave := wf o |} in
           epicyclesRecurse fuel' t n wf (nextEpicylePos t epi) (epis ++ [epi])
       end.

Definition epicycles (fuel : nat) (t : Time) (n : Z) (wf : WaveForm)
    : option (list Epicycle) :=
  epicyclesRecurse fuel t n wf (p5.createVector 0 0) [].

Record State : Type := mkState {
  time : Time;
  trajectory : Trajectory
}.

(** The frame: five octaves of the square wave, 256 points kept. *)
Definition draw (fuel : nat) (st : State) : option State :=
  epis ← epicycles fuel (time st) 5 squareWave;
  radials ← radialLines (time st) epis;
  lastRadial ← js_index radials (Z.of_nat (length radials) - 1);
  let lastPos := p2 lastRadial in
  Some {| time := incrementTime (time st) DT;
          trajectory := pushTrajectory 256 lastPos (trajectory st) |}.

End V1.

(** ** The class-based sketch of [src/index.ts] *)

Module Index.

Definition SCALE : R := 75%R.
Definition DT : R := 0.025%R.

Record Epicycle : Type := mkEpicycle {
  pos : p5.Vector;
  r : R;
  k : R;
  phi : R
}.

(** An optional numeric argument counts as given when it is neither
    [undefined] nor zero. *)
Definition truthy (v : option R) : option R :=
  match v with
  | Some a => if Req_dec_T a 0 then None else Some a
  | None => None
  end.

(** The constructor, with its four optional arguments. *)
Definition new_Epicycle (position : option p5.Vector)
    (radius k phase : option R) : Epicycle :=
  {| pos := match position with
            | Some v => v
            | None => p5.createVector 0 0
            end;
     r := match truthy radius with
          | Some a => (a * SCALE)%R
          | None => SCALE
          end;
     k := match truthy k with Some a => a | None => 1%R end;
     phi := match truthy phase with Some a => a | None => 0%R end |}.

(** [getRadialPhasePoint] reads the global [time]. *)
Definition getRadialPhasePoint (time : R) (e : Epicycle) : p5.Vector :=
  let theta := (k e * time + phi e)%R in
  p5.createVector (cos (- theta) * r e + p5.x (pos e))%R
                  (sin (- theta) * r e + p5.y (pos e))%R.

Definition squareWaveKByIndex (i : R) : R := (2 * i + 1)%R.

Definition triangleWaveKByIndex (i : R) : R := (2 * (i + 1))%R.

(** One turn of the loop of [buildEpicycles]: the epicycles built so far,
    [actual_pos] and the global trajectory. *)
Definition buildStep (time : R) (octaves : Z) (fn : R -> R)
    (acc : list Epicycle * p5.Vector * Trajectory) (n : nat)
    : list Epicycle * p5.Vector * Trajectory :=
  let '(epicycles, actual_pos, trajectory) := acc in
  let k := fn (INR n) in
  let radius := (4 / (k * PI))%R in
  let epi := new_Epicycle (Some actual_pos) (Some radius) (Some k) None in
  let actual_pos := getRadialPhasePoint time epi in
  let trajectory :=
    if (Z.of_nat n =? octaves - 1)%Z
    then pushTrajectory 256 actual_pos trajectory
    else trajectory in
  (epicycles ++ [epi], actual_pos, trajectory).

(** [for (let n = 0; n < octaves; n++)] for an integer [octaves]; the
    function returns the epicycles and leaves the trajectory changed. *)
Definition buildEpicycles (time : R) (octaves : Z) (fn : R -> R)
    (trajectory : Trajectory) : list Epicycle * Trajectory :=
  let '(epicycles, _, trajectory) :=
    foldl (buildStep time octaves fn)
          ([], p5.createVector 0 0, trajectory)
          (seq 0 (Z.to_nat octaves)) in
  (epicycles, trajectory).

Record State : Type := mkState {
  time : R;
  trajectory : Trajectory
}.

(** The frame of [index.ts]; [octaves] and [waveForm] are the values of
    the slider and of the radio.  Reading [trajectory[0].x] throws on an
    empty trajectory. *)
Definition draw (st : State) (octaves : Z) (waveForm : string)
    : option State :=
  let fn := if String.eqb waveForm "square"
            then squareWaveKByIndex else triangleWaveKByIndex in
  let '(_, trajectory) := buildEpicycles (time st) octaves fn (trajectory st) in
  actual ← trajectory !! 0;
  let time := (time st + DT)%R in
  let time := if Rlt_dec TWO_PI time then (time - TWO_PI)%R else time in
  Some {| time := time; trajectory := trajectory |}.

End Index.

(** An epicycle of the class read as an epicycle of [sketch.ts]: the
    radius is the amplitude, [k] the angular velocity and [phi] the
    initial offset. *)
Definition toSketch (e : Index.Epicycle) : Epicycle :=
  {| pos := Index.pos e;
     wave := {| amplitude := Index.r e;
                angularVelocity := Index.k e;
                initialOffset := Index.phi e |} |}.

(** The waves that [Index.buildEpicycles] builds from the harmonic indices
    of [fn]. *)
Definition indexWave (fn : R -> R) : WaveForm := fun o =>
  {| amplitude := (4 / (fn (INR o) * PI) * Index.SCALE)%R;
     angularVelocity := fn (INR o);
     initialOffset := 0%R |}.

(** A generator whose angular velocities are all integers. *)
Definition harmonic (wf : WaveForm) : Prop :=
  forall o : Octave, exists m : Z, angularVelocity (wf o) = IZR m.

(** The square of the distance between two points. *)
Definition dist2 (p q : p5.Vector) : R :=
  ((p5.x q - p5.x p) ^ 2 + (p5.y q - p5.y p) ^ 2)%R.

(** * Properties *)

(** ** ToInt32 and the exclusive or *)

Section Int32.

Local Open Scope Z_scope.

Lemma Rtrunc_IZR (z : Z) : Rtrunc (IZR z) = z.
Proof.
  unfold Rtrunc, Zceil. destruct (Rle_dec 0 (IZR z)).
  - apply ZfloorZ.
  - rewrite ZfloorNZ. lia.
Qed.

Lemma Rtrunc_2_71 : Rtrunc 2.71%R = 2.
Proof.
  unfold Rtrunc. destruct (Rle_dec 0 2.71%R) as [_ | Hn].
  - apply Zfloor_eq. lra.
  - exfalso. apply Hn. lra.
Qed.

Lemma wrap32_int32 (z : Z) : int32 (wrap32 z).
Proof.
  unfold int32, wrap32.
  pose proof (Z.mod_pos_bound z (2 ^ 32) ltac:(lia)) as Hm.
  destruct (Z.ltb_spec (z mod 2 ^ 32) (2 ^ 31)); lia.
Qed.

Lemma wrap32_id (z : Z) : int32 z -> wrap32 z = z.
Proof.
  unfold int32, wrap32. intros Hz.
  destruct (Z.le_gt_cases 0 z) as [Hpos | Hneg].
  - rewrite Z.mod_small by lia.
    destruct (Z.ltb_spec z (2 ^ 31)); lia.
  - replace (z mod 2 ^ 32) with (z + 2 ^ 32).
    + destruct (Z.ltb_spec (z + 2 ^ 32) (2 ^ 31)); lia.
    + apply Z.mod_unique with (q := -1); lia.
Qed.

(** Below 2^31 the exclusive or of two naturals stays below 2^31. *)
Lemma lxor_nonneg_lt (a b : Z) :
  0 <= a < 2 ^ 31 -> 0 <= b < 2 ^ 31 -> 0 <= Z.lxor a b < 2 ^ 31.
Proof.
  intros Ha Hb. split.
  - apply Z.lxor_nonneg. lia.
  - destruct (Z.eq_dec (Z.lxor a b) 0) as [-> | Hnz]; [lia |].
    assert (0 < Z.lxor a b) as Hpos.
    { pose proof (proj2 (Z.lxor_nonneg a b)) as H. lia. }
    apply Z.log2_lt_pow2; [exact Hpos |].
    pose proof (Z.log2_lxor a b ltac:(lia) ltac:(lia)) as Hl.
    assert (Z.log2 a < 31) as Hla.
    { destruct (Z.eq_dec a 0) as [-> | ?]; [simpl; lia |].
      apply Z.log2_lt_pow2; lia. }
    assert (Z.log2 b < 31) as Hlb.
    { destruct (Z.eq_dec b 0) as [-> | ?]; [simpl; lia |].
      apply Z.log2_lt_pow2; lia. }
    lia.
Qed.

(** The exclusive or of two signed 32-bit integers is one. *)
Lemma lxor_int32 (a b : Z) : int32 a -> int32 b -> int32 (Z.lxor a b).
Proof.
  unfold int32. intros Ha Hb.
  destruct (Z.le_gt_cases 0 a) as [Hpa | Hna];
    destruct (Z.le_gt_cases 0 b) as [Hpb | Hnb].
  - pose proof (lxor_nonneg_lt a b); lia.
  - (* a >= 0 > b *)
    pose proof (lxor_nonneg_lt a (Z.lnot b)) as H.
    rewrite Z.lxor_comm, <- Z.lnot_lxor_l, Z.lxor_comm in H.
    unfold Z.lnot in H at 1. unfold Z.lnot in H at 1.
    unfold Z.lnot in H. lia.
  - pose proof (lxor_nonneg_lt (Z.lnot a) b) as H.
    rewrite <- Z.lnot_lxor_l in H.
    unfold Z.lnot in H. lia.
  - pose proof (lxor_nonneg_lt (Z.lnot a) (Z.lnot b)) as H.
    rewrite Z.lxor_lnot_lnot in H.
    unfold Z.lnot in H. lia.
Qed.

Lemma lxor_cancel (a b : Z) : Z.lxor a (Z.lxor b a) = b.
Proof.
  rewrite (Z.lxor_comm b a), <- Z.lxor_assoc, Z.lxor_nilpotent.
  apply Z.lxor_0_l.
Qed.

Lemma ToInt32_IZR (z : Z) : ToInt32 (IZR z) = wrap32 z.
Proof. unfold ToInt32. now rewrite Rtrunc_IZR. Qed.

Lemma ToInt32_2_71 : ToInt32 2.71%R = 2.
Proof. unfold ToInt32. rewrite Rtrunc_2_71. reflexivity. Qed.

(** The result of [^] is a fixed point of ToInt32. *)
Lemma ToInt32_js_xor (a b : R) :
  ToInt32 (js_xor a b) = Z.lxor (ToInt32 a) (ToInt32 b).
Proof.
  unfold js_xor. rewrite ToInt32_IZR. apply wrap32_id.
  apply lxor_int32; apply wrap32_int32.
Qed.

(** [k ^ (c ^ k)] is ToInt32 of [c], whatever the number [k]. *)
Lemma js_xor_cancel (k c : R) :
  js_xor k (js_xor c k) = IZR (ToInt32 c).
Proof.
  unfold js_xor at 1. rewrite ToInt32_js_xor. now rewrite lxor_cancel.
Qed.

End Int32.

(** ** The waveform catalogue *)

Lemma lolWave_angularVelocity (o : Octave) : angularVelocity (lolWave o) = 2%R.
Proof.
  unfold lolWave; simpl. rewrite js_xor_cancel, ToInt32_2_71. reflexivity.
Qed.

Lemma harmonic_index_pos (o : Octave) : (0 < IZR (2 * (Z.of_nat o + 1)))%R.
Proof. apply IZR_lt. lia. Qed.

Lemma Rtrunc_floor (x : R) (z : Z) :
  (0 <= IZR z)%R -> (IZR z <= x < IZR z + 1)%R -> Rtrunc x = z.
Proof.
  intros Hz Hx. unfold Rtrunc. destruct (Rle_dec 0 x) as [_ | Hn].
  - now apply Zfloor_eq.
  - exfalso. apply Hn. lra.
Qed.

Lemma powerVelocity_0 : powerVelocity 0 = 5%R.
Proof.
  unfold powerVelocity, js_xor. simpl Z.to_nat.
  rewrite ToInt32_IZR. unfold ToInt32.
  rewrite (Rtrunc_floor _ 7) by (simpl; lra).
  reflexivity.
Qed.

(** C5, as the specification words it, fails at octave 0: the code yields
    the angular velocity 2, while [k XOR (2.71 to the power k)] is
    [2 XOR 7 = 5] there. *)
Lemma lolWave_not_power_xor :
  angularVelocity (lolWave 0) <> powerVelocity 0.
Proof.
  rewrite lolWave_angularVelocity, powerVelocity_0. lra.
Qed.

(** C5 (amended): for every octave [o], with [k = 2(o+1)], the generator
    named 'sin' returns the amplitude [4A/(k pi)], the initial offset 0,
    and the angular velocity [k XOR (2.71 XOR k)], where both [^] are the
    bitwise exclusive or on operands converted by ToInt32, under which
    2.71 counts as 2. *)
Theorem lolWave_spec (o : Octave) :
  let k : Z := (2 * (Z.of_nat o + 1))%Z in
  waveForm "sin" = lolWave /\
  amplitude (lolWave o) = (4 * SCALE / (IZR k * PI))%R /\
  initialOffset (lolWave o) = 0%R /\
  angularVelocity (lolWave o)
    = IZR (Z.lxor (ToInt32 (IZR k)) (Z.lxor (ToInt32 2.71%R) (ToInt32 (IZR k)))) /\
  ToInt32 2.71%R = 2%Z.
Proof.
  intros k. split; [reflexivity |]. split; [| split; [reflexivity | split]].
  - unfold lolWave; simpl. fold k. f_equal. lra.
  - unfold lolWave; simpl. fold k. unfold js_xor at 1.
    now rewrite ToInt32_js_xor.
  - exact ToInt32_2_71.
Qed.

(** C10: for every octave [o] whose harmonic index [k = 2(o+1)] is a signed
    32-bit integer, the generator named 'sin' returns the angular velocity
    2: ToInt32 leaves [k] as it is and maps 2.71 to 2, and
    [k XOR (2 XOR k) = 2], so the angular velocity is the same at every
    octave. *)
Theorem lolWave_angularVelocity_two (o : Octave) (k : Z) :
  k = (2 * (Z.of_nat o + 1))%Z -> int32 k ->
  ToInt32 (IZR k) = k /\
  ToInt32 2.71%R = 2%Z /\
  angularVelocity (waveForm "sin" o) = IZR (Z.lxor k (Z.lxor 2 k)) /\
  Z.lxor k (Z.lxor 2 k) = 2%Z /\
  angularVelocity (waveForm "sin" o) = 2%R /\
  angularVelocity (waveForm "sin" o) = angularVelocity (waveForm "sin" 0).
Proof.
  intros Hk Hrange. change (waveForm "sin") with lolWave.
  assert (ToInt32 (IZR k) = k) as Hfix.
  { rewrite ToInt32_IZR. now apply wrap32_id. }
  split; [exact Hfix |]. split; [exact ToInt32_2_71 |]. split.
  - unfold lolWave; simpl. rewrite <- Hk. unfold js_xor at 1.
    now rewrite ToInt32_js_xor, ToInt32_2_71, Hfix.
  - split; [apply lxor_cancel |].
    now rewrite !lolWave_angularVelocity.
Qed.

Lemma lolWave_angularVelocity_two_witness :
  int32 8 /\ angularVelocity (waveForm "sin" 3) = 2%R.
Proof.
  assert (int32 8) as Hrange by (unfold int32; lia).
  split; [exact Hrange |].
  exact (proj1 (proj2 (proj2 (proj2 (proj2
    (lolWave_angularVelocity_two 3 8 eq_refl Hrange)))))).
Defined.

(** C8: a name that is none of 'square', 'sawtooth' and 'sin' resolves to
    the square-wave generator; so does 'unknown', as 'square' does. *)
Theorem waveForm_unknown (name : string) :
  name <> "square" -> name <> "sawtooth" -> name <> "sin" ->
  waveForm name = squareWave /\ waveForm "unknown" = waveForm "square".
Proof.
  intros Hsq Hsaw Hsin. split; [| reflexivity].
  unfold waveForm, wfs.
  rewrite !lookup_insert_ne by congruence.
  now rewrite lookup_empty.
Qed.

Lemma waveForm_unknown_witness :
  waveForm "unknown" = squareWave /\ waveForm "unknown" = waveForm "square".
Proof.
  apply (waveForm_unknown "unknown"); discriminate.
Defined.

(** ** The epicycle builder *)

Section Builder.

Variables (t : Time) (wf : WaveForm).

Lemma length_chainFrom (c : p5.Vector) (o : Octave) (m : nat) :
  length (chainFrom t wf c o m) = m.
Proof.
  revert c o. induction m as [| m IH]; intros c o; simpl; [reflexivity |].
  now rewrite IH.
Qed.

Lemma tipFrom_S_r (c : p5.Vector) (o : Octave) (m : nat) :
  tipFrom t wf c o (S m)
  = nextEpicylePos t {| pos := tipFrom t wf c o m; wave := wf (o + m) |}.
Proof.
  revert c o. induction m as [| m IH]; intros c o.
  - simpl. now rewrite Nat.add_0_r.
  - change (tipFrom t wf c o (S (S m)))
      with (tipFrom t wf (nextEpicylePos t {| pos := c; wave := wf o |}) (S o) (S m)).
    rewrite IH. simpl. now rewrite Nat.add_succ_r.
Qed.

Lemma chainFrom_lookup (c : p5.Vector) (o : Octave) (m i : nat) :
  i < m ->
  chainFrom t wf c o m !! i
  = Some {| pos := tipFrom t wf c o i; wave := wf (o + i) |}.
Proof.
  revert c o i. induction m as [| m IH]; intros c o i Hi; [lia |].
  destruct i as [| i]; simpl.
  - now rewrite Nat.add_0_r.
  - rewrite IH by lia. now rewrite Nat.add_succ_r.
Qed.

Lemma chainFrom_lookup_ge (c : p5.Vector) (o : Octave) (m i : nat) :
  m <= i -> chainFrom t wf c o m !! i = None.
Proof.
  intros Hi. apply lookup_ge_None. now rewrite length_chainFrom.
Qed.

(** With fuel for the octaves still to come, the builder appends them. *)
Lemma epicyclesRecurse_chain (n : Z) (m : nat) :
  forall (fuel : nat) (c : p5.Vector) (epis : list Epicycle),
    n = Z.of_nat (length epis + m) -> m <= fuel ->
    epicyclesRecurse fuel t n wf c epis
    = Some (epis ++ chainFrom t wf c (length epis) m).
Proof.
  induction m as [| m IH]; intros fuel c epis Hn Hfuel.
  - rewrite Nat.add_0_r in Hn. subst n.
    destruct fuel; simpl; rewrite Z.eqb_refl; now rewrite app_nil_r.
  - destruct fuel as [| fuel]; [lia |]. simpl.
    destruct (Z.eqb_spec (Z.of_nat (length epis)) n) as [Heq | _]; [lia |].
    rewrite IH.
    + rewrite length_app, Nat.add_1_r, <- app_assoc. reflexivity.
    + rewrite length_app. simpl. lia.
    + lia.
Qed.

(** Past the requested count the exit test never holds again. *)
Lemma epicyclesRecurse_overshoot (n : Z) (fuel : nat) :
  forall (c : p5.Vector) (epis : list Epicycle),
    (n < Z.of_nat (length epis))%Z ->
    epicyclesRecurse fuel t n wf c epis = None.
Proof.
  induction fuel as [| fuel IH]; intros c epis Hlt; simpl;
    destruct (Z.eqb_spec (Z.of_nat (length epis)) n) as [Heq | _];
    try lia; [reflexivity |].
  apply IH. rewrite length_app. simpl. lia.
Qed.

(** Without fuel for all the octaves the builder does not return. *)
Lemma epicyclesRecurse_starved (n : Z) (fuel : nat) :
  forall (c : p5.Vector) (epis : list Epicycle),
    (Z.of_nat (length epis + fuel) < n)%Z ->
    epicyclesRecurse fuel t n wf c epis = None.
Proof.
  induction fuel as [| fuel IH]; intros c epis Hlt; simpl;
    destruct (Z.eqb_spec (Z.of_nat (length epis)) n) as [Heq | _];
    try lia; [reflexivity |].
  apply IH. rewrite length_app. simpl. lia.
Qed.

Lemma epicycles_chain (n : Z) (fuel : nat) :
  (0 <= n <= Z.of_nat fuel)%Z ->
  epicycles fuel t n wf
  = Some (chainFrom t wf (p5.createVector 0 0) 0 (Z.to_nat n)).
Proof.
  intros Hn. unfold epicycles.
  rewrite (epicyclesRecurse_chain n (Z.to_nat n)); simpl; [reflexivity | lia | lia].
Qed.

(** The builder returns exactly when the count is a natural number that
    the fuel covers. *)
Lemma epicycles_Some_iff (n : Z) (fuel : nat) :
  is_Some (epicycles fuel t n wf) <-> (0 <= n <= Z.of_nat fuel)%Z.
Proof.
  split.
  - intros [epis Hsome].
    destruct (Z.lt_ge_cases n 0) as [Hneg | Hpos].
    + unfold epicycles in Hsome.
      rewrite epicyclesRecurse_overshoot in Hsome by (simpl; lia). discriminate.
    + destruct (Z.lt_ge_cases (Z.of_nat fuel) n) as [Hfew | Hok]; [| lia].
      unfold epicycles in Hsome.
      rewrite epicyclesRecurse_starved in Hsome by (simpl; lia). discriminate.
  - intros Hn. rewrite epicycles_chain by exact Hn. eauto.
Qed.

End Builder.

Lemma squareWave_0 :
  squareWave 0
  = {| amplitude := (4 * SCALE / PI)%R;
       angularVelocity := 1%R;
       initialOffset := 0%R |}.
Proof.
  unfold squareWave. change (2 * Z.of_nat 0 + 1)%Z with 1%Z. cbv zeta.
  f_equal. field. apply PI_neq0.
Qed.

(** The first two epicycles of the square wave at time 0. *)
Lemma epicycles_square_0_2 (fuel : nat) :
  2 <= fuel ->
  exists e0 e1,
    epicycles fuel 0%R 2 squareWave = Some [e0; e1] /\
    e0 = {| pos := p5.createVector 0 0;
            wave := {| amplitude := (4 * SCALE / PI)%R;
                       angularVelocity := 1%R;
                       initialOffset := 0%R |} |} /\
    pos e1 = p5.createVector (4 * SCALE / PI)%R 0%R.
Proof.
  intros Hfuel. rewrite epicycles_chain by lia.
  eexists _, _. split; [reflexivity |]. split.
  - now rewrite squareWave_0.
  - unfold nextEpicylePos. rewrite squareWave_0. simpl.
    replace (- (0 * 1 + 0))%R with 0%R by lra.
    rewrite cos_0, sin_0. f_equal; lra.
Qed.

(** C1: for [n >= 1] the chain returned by [epicycles] obeys the positional
    recurrence.  Epicycle 0 is centred at (0,0); epicycle [o] carries the
    wave [wf o], and the centre that follows it is
    [(a cos(-theta) + x, a sin(-theta) + y)] with [a] the amplitude of
    [wf o], [theta = t * angularVelocity + initialOffset] and [(x, y)] the
    centre of epicycle [o].  In particular [epicycles 0 2 squareWave] starts
    with the epicycle at (0,0) of amplitude 4A/pi, angular velocity 1 and
    offset 0, and its second epicycle is centred at (4A/pi, 0). *)
Theorem epicycles_recurrence (t : Time) (wf : WaveForm) (n : Z) (fuel : nat) :
  (1 <= n)%Z -> (n <= Z.of_nat fuel)%Z ->
  (exists epis,
      epicycles fuel t n wf = Some epis /\
      (exists e0, epis !! 0 = Some e0 /\ pos e0 = p5.createVector 0 0) /\
      (forall o : Octave, (Z.of_nat o < n)%Z ->
         exists e, epis !! o = Some e /\ wave e = wf o /\
           let theta := (t * angularVelocity (wf o) + initialOffset (wf o))%R in
           let next := p5.createVector
                         (amplitude (wf o) * cos (- theta) + p5.x (pos e))%R
                         (amplitude (wf o) * sin (- theta) + p5.y (pos e))%R in
           nextEpicylePos t e = next /\
           ((Z.of_nat o + 1 < n)%Z ->
              exists e', epis !! (o + 1) = Some e' /\ pos e' = next))) /\
  (forall fuel', 2 <= fuel' ->
     exists e0 e1,
       epicycles fuel' 0%R 2 squareWave = Some [e0; e1] /\
       e0 = {| pos := p5.createVector 0 0;
               wave := {| amplitude := (4 * SCALE / PI)%R;
                          angularVelocity := 1%R;
                          initialOffset := 0%R |} |} /\
       pos e1 = p5.createVector (4 * SCALE / PI)%R 0%R).
Proof.
  intros Hn Hfuel. split; [| exact epicycles_square_0_2].
  rewrite epicycles_chain by lia. eexists. split; [reflexivity |]. split.
  - rewrite chainFrom_lookup by lia. eexists. split; reflexivity.
  - intros o Ho. rewrite chainFrom_lookup by lia.
    eexists. split; [reflexivity |]. split; [reflexivity |].
    cbv zeta. split; [reflexivity |]. intros Ho'.
    rewrite chainFrom_lookup by lia. eexists. split; [reflexivity |].
    rewrite Nat.add_1_r, tipFrom_S_r. reflexivity.
Qed.

Lemma epicycles_recurrence_witness :
  exists epis,
    epicycles 2 0%R 2 squareWave = Some epis /\
    exists e0, epis !! 0 = Some e0 /\ pos e0 = p5.createVector 0 0.
Proof.
  destruct (epicycles_recurrence 0%R squareWave 2 2 ltac:(lia) ltac:(lia))
    as [(epis & Hrun & Hfirst & _) _].
  exists epis. split; [exact Hrun | exact Hfirst].
Defined.

(** C2: for [0 <= n <= 24], any time and any generator, [epicycles] returns
    a list of exactly [n] epicycles, in the order of the octaves from
    octave 0. *)
Theorem epicycles_length (t : Time) (wf : WaveForm) (n : Z) (fuel : nat) :
  (0 <= n <= 24)%Z -> (n <= Z.of_nat fuel)%Z ->
  exists epis,
    epicycles fuel t n wf = Some epis /\
    Z.of_nat (length epis) = n /\
    forall o : Octave, (Z.of_nat o < n)%Z ->
      exists e, epis !! o = Some e /\ wave e = wf o.
Proof.
  intros Hn Hfuel. rewrite epicycles_chain by lia.
  eexists. split; [reflexivity |]. split.
  - rewrite length_chainFrom. lia.
  - intros o Ho. rewrite chainFrom_lookup by lia.
    eexists. split; reflexivity.
Qed.

Lemma epicycles_length_witness :
  exists epis,
    epicycles 24 1%R 24 sawWave = Some epis /\ Z.of_nat (length epis) = 24%Z.
Proof.
  destruct (epicycles_length 1%R sawWave 24 24 ltac:(lia) ltac:(lia))
    as (epis & Hrun & Hlen & _).
  exists epis. split; [exact Hrun | exact Hlen].
Defined.

(** ** The radial lines *)

Section Radials.

Variable t : Time.

Lemma length_radialsOf (epis : list Epicycle) :
  length (radialsOf t epis) = length epis.
Proof. induction epis as [| e rest IH]; simpl; [reflexivity | now rewrite IH]. Qed.

Lemma radialsOf_lookup (epis : list Epicycle) (i : nat) (e : Epicycle) :
  epis !! i = Some e ->
  radialsOf t epis !! i
  = Some {| p1 := pos e;
            p2 := match epis !! (i + 1) with
                  | Some e' => pos e'
                  | None => nextEpicylePos t e
                  end |}.
Proof.
  revert i. induction epis as [| e0 rest IH]; intros i Hi; [discriminate |].
  destruct i as [| i]; simpl in *.
  - injection Hi as ->. now destruct rest.
  - now apply IH.
Qed.

(** The loop, started at index [i] with [acc] collected so far. *)
Lemma radialLoop_radialsOf (epis : list Epicycle) (m : nat) :
  forall (i : nat) (acc : list RadialLine),
    i + m = length epis ->
    foldl (radialStep t epis) (Some acc) (seq i m)
    = Some (acc ++ radialsOf t (drop i epis)).
Proof.
  induction m as [| m IH]; intros i acc Hlen; simpl.
  - rewrite drop_ge by lia. now rewrite app_nil_r.
  - destruct (lookup_lt_is_Some_2 epis i ltac:(lia)) as [ei Hei].
    rewrite (drop_S _ _ _ Hei), Hei. simpl.
    destruct (Z.eqb_spec (Z.of_nat i) (Z.of_nat (length epis) - 1)) as [Hlast | Hmid].
    + simpl. rewrite IH by lia.
      rewrite (drop_ge epis (S i)) by lia. now rewrite <- app_assoc.
    + destruct (lookup_lt_is_Some_2 epis (S i) ltac:(lia)) as [ej Hej].
      rewrite Nat.add_1_r, Hej. simpl. rewrite IH by lia.
      rewrite (drop_S _ _ _ Hej). now rewrite <- app_assoc.
Qed.

(** [radialLines] never reads outside the chain, and returns
    [radialsOf]. *)
Lemma radialLines_radialsOf (epis : list Epicycle) :
  radialLines t epis = Some (radialsOf t epis).
Proof.
  unfold radialLines. now rewrite (radialLoop_radialsOf epis (length epis) 0 []).
Qed.

End Radials.

(** C3: for a chain of [n] epicycles [radialLines] returns [n] segments;
    segment [i] starts at the centre of epicycle [i] and ends at the centre
    of epicycle [i+1] when [i < n-1]; the last one ends at the position
    that [nextEpicylePos], the step of the builder, gives for the last
    epicycle. *)
Theorem radialLines_spec (t : Time) (epis : list Epicycle) :
  exists segs,
    radialLines t epis = Some segs /\
    length segs = length epis /\
    forall (i : nat) (e : Epicycle), epis !! i = Some e ->
      exists s, segs !! i = Some s /\ p1 s = pos e /\
        (i + 1 < length epis ->
           exists e', epis !! (i + 1) = Some e' /\ p2 s = pos e') /\
        (i + 1 = length epis -> p2 s = nextEpicylePos t e).
Proof.
  exists (radialsOf t epis). split; [apply radialLines_radialsOf |].
  split; [apply length_radialsOf |].
  intros i e Hi. rewrite (radialsOf_lookup t epis i e Hi).
  eexists. split; [reflexivity |]. split; [reflexivity |]. simpl. split.
  - intros Hlt. destruct (lookup_lt_is_Some_2 epis (i + 1) Hlt) as [e' He'].
    exists e'. now rewrite He'.
  - intros Hlast. now rewrite (lookup_ge_None_2 epis (i + 1)) by lia.
Qed.

Lemma radialLines_spec_witness :
  let e := {| pos := p5.createVector 0 0; wave := squareWave 0 |} in
  exists s, radialLines 0%R [e] = Some [s] /\ p2 s = nextEpicylePos 0%R e.
Proof.
  intros e.
  destruct (radialLines_spec 0%R [e]) as (segs & Hrun & Hlen & Hseg).
  destruct (Hseg 0 e eq_refl) as (s & Hs & _ & _ & Hlast).
  exists s. split; [| exact (Hlast eq_refl)].
  destruct segs as [| s0 [| s1 segs]]; simpl in Hlen; try discriminate.
  simpl in Hs. injection Hs as ->. exact Hrun.
Defined.

(** C6, as stated, fails at [n = -1]: the exit test [epis.length === n]
    never holds and the builder returns with no amount of fuel. *)
Lemma epicycles_negative_no_result :
  ~ exists fuel : nat, is_Some (epicycles fuel 0%R (-1) squareWave).
Proof.
  intros [fuel Hsome]. apply epicycles_Some_iff in Hsome. lia.
Qed.

(** C6 (amended): for [n = 0], any time and any generator, [epicycles]
    returns the empty chain, whatever the fuel, and [radialLines] on that
    chain returns the empty list of segments; neither throws. *)
Theorem epicycles_zero_empty (t : Time) (wf : WaveForm) (fuel : nat) :
  exists epis,
    epicycles fuel t 0 wf = Some epis /\ epis = [] /\
    radialLines t epis = Some [].
Proof.
  exists []. split; [| split; reflexivity].
  rewrite epicycles_chain by lia. reflexivity.
Qed.

(** ** The pencil *)

Section Pencil.

Variables (t : Time) (wf : WaveForm).

(** Segment [i] of the chain joins two successive partial positions. *)
Lemma chain_radial_lookup (m i : nat) :
  i < m ->
  radialsOf t (chainFrom t wf (p5.createVector 0 0) 0 m) !! i
  = Some {| p1 := tipFrom t wf (p5.createVector 0 0) 0 i; p2 := tipFrom t wf (p5.createVector 0 0) 0 (S i) |}.
Proof.
  intros Hi.
  rewrite (radialsOf_lookup t _ i _ (chainFrom_lookup t wf (p5.createVector 0 0) 0 m i Hi)).
  simpl pos. do 2 f_equal.
  destruct (Nat.lt_ge_cases (i + 1) m) as [Hmid | Hlast].
  - rewrite chainFrom_lookup by exact Hmid. simpl. now rewrite Nat.add_1_r.
  - rewrite chainFrom_lookup_ge by exact Hlast. now rewrite tipFrom_S_r.
Qed.

Lemma tipFrom_sum_x (c : p5.Vector) (m : nat) :
  p5.x (tipFrom t wf c 0 (S m)) = (p5.x c + sum_f_R0 (rotX t wf) m)%R.
Proof.
  induction m as [| m IH].
  - simpl. unfold rotX. lra.
  - rewrite tipFrom_S_r. unfold nextEpicylePos. cbn [p5.x pos wave].
    rewrite IH. cbn [sum_f_R0 Nat.add]. unfold rotX at 3. lra.
Qed.

Lemma tipFrom_sum_y (c : p5.Vector) (m : nat) :
  p5.y (tipFrom t wf c 0 (S m)) = (p5.y c + sum_f_R0 (rotY t wf) m)%R.
Proof.
  induction m as [| m IH].
  - simpl. unfold rotY. lra.
  - rewrite tipFrom_S_r. unfold nextEpicylePos. cbn [p5.y pos wave].
    rewrite IH. cbn [sum_f_R0 Nat.add]. unfold rotY at 3. lra.
Qed.

(** The pencil of a frame with at least one octave. *)
Lemma pencil_tip (n : Z) (fuel : nat) :
  (1 <= n <= Z.of_nat fuel)%Z ->
  pencil fuel t n wf = Some (tipFrom t wf (p5.createVector 0 0) 0 (Z.to_nat n)).
Proof.
  intros Hn. unfold pencil. rewrite epicycles_chain by lia. simpl.
  rewrite radialLines_radialsOf. simpl.
  rewrite length_radialsOf, length_chainFrom. unfold js_index.
  destruct (Z.ltb_spec (Z.of_nat (Z.to_nat n) - 1) 0) as [Hneg | _]; [lia |].
  replace (Z.to_nat (Z.of_nat (Z.to_nat n) - 1)) with (Z.to_nat n - 1) by lia.
  rewrite chain_radial_lookup by lia. cbn [fmap option_fmap option_map p2].
  now replace (S (Z.to_nat n - 1)) with (Z.to_nat n) by lia.
Qed.

(** With no octave there is no last radial line to read. *)
Lemma pencil_none (n : Z) (fuel : nat) :
  (n <= 0)%Z -> pencil fuel t n wf = None.
Proof.
  intros Hn. unfold pencil.
  destruct (Z.eq_dec n 0%Z) as [-> | Hneg].
  - rewrite epicycles_chain by lia. reflexivity.
  - unfold epicycles. rewrite epicyclesRecurse_overshoot by (simpl; lia).
    reflexivity.
Qed.

End Pencil.

(** C9: for [n >= 1] the segments of [radialLines] on the chain of
    [epicycles] are connected, each ending where the next one starts, and
    the end of the last one, the pencil, is the sum over the octaves
    [o = 0 .. n-1] of the rotation vectors
    [(a_o cos(-theta_o), a_o sin(-theta_o))]. *)
Theorem pencil_partial_sum (t : Time) (wf : WaveForm) (n : Z) (fuel : nat) :
  (1 <= n)%Z -> (n <= Z.of_nat fuel)%Z ->
  exists epis segs,
    epicycles fuel t n wf = Some epis /\
    radialLines t epis = Some segs /\
    Z.of_nat (length segs) = n /\
    (forall i : nat, (Z.of_nat i + 1 < n)%Z ->
       exists s s', segs !! i = Some s /\ segs !! (i + 1) = Some s' /\
                    p2 s = p1 s') /\
    exists final,
      segs !! (Z.to_nat n - 1) = Some final /\
      pencil fuel t n wf = Some (p2 final) /\
      p5.x (p2 final) = sum_f_R0 (rotX t wf) (Z.to_nat n - 1) /\
      p5.y (p2 final) = sum_f_R0 (rotY t wf) (Z.to_nat n - 1).
Proof.
  intros Hn Hfuel.
  rewrite epicycles_chain by lia. eexists _, _.
  split; [reflexivity |]. split; [apply radialLines_radialsOf |].
  split; [rewrite length_radialsOf, length_chainFrom; lia |]. split.
  - intros i Hi. rewrite !chain_radial_lookup by lia.
    eexists _, _. split; [reflexivity |]. split; [reflexivity |].
    simpl. now rewrite Nat.add_1_r.
  - rewrite chain_radial_lookup by lia. eexists. split; [reflexivity |].
    cbn [p2]. rewrite tipFrom_sum_x, tipFrom_sum_y. cbn [p5.x p5.y].
    split; [| split; lra].
    rewrite pencil_tip by lia. do 2 f_equal. lia.
Qed.

Lemma pencil_partial_sum_witness :
  exists tip,
    pencil 2 0%R 2 squareWave = Some tip /\
    p5.x tip = sum_f_R0 (rotX 0%R squareWave) 1.
Proof.
  destruct (pencil_partial_sum 0%R squareWave 2 2 ltac:(lia) ltac:(lia))
    as (epis & segs & _ & _ & _ & _ & final & _ & Hpencil & Hx & _).
  exists (p2 final). split; [exact Hpencil | exact Hx].
Defined.

(** ** The trajectory *)

Section Trajectory.

Variable C : nat.

(** Below or at capacity, a push conses and keeps the first [C] points. *)
Lemma pushTrajectory_take (p : p5.Vector) (tr : Trajectory) :
  length tr <= C -> pushTrajectory C p tr = take C (p :: tr).
Proof.
  intros Hlen. unfold pushTrajectory.
  destruct (Nat.ltb_spec C (length (p :: tr))) as [Hfull | Hroom].
  - rewrite removelast_firstn_len. f_equal. simpl in *. lia.
  - now rewrite take_ge.
Qed.

Lemma length_pushTrajectory (p : p5.Vector) (tr : Trajectory) :
  length tr <= C -> length (pushTrajectory C p tr) <= C.
Proof.
  intros Hlen. rewrite pushTrajectory_take by exact Hlen.
  rewrite length_take. lia.
Qed.

Lemma take_app_take (l k : list p5.Vector) :
  take C (l ++ take C k) = take C (l ++ k).
Proof.
  rewrite !take_app, take_take. do 2 f_equal. lia.
Qed.

(** A run of pushes keeps the [C] latest points, latest first. *)
Lemma pushAll_take (ps : list p5.Vector) :
  forall tr : Trajectory,
    length tr <= C -> pushAll C ps tr = take C (reverse ps ++ tr).
Proof.
  induction ps as [| p ps IH]; intros tr Hlen.
  - simpl. now rewrite take_ge.
  - change (pushAll C (p :: ps) tr) with (pushAll C ps (pushTrajectory C p tr)).
    rewrite IH by now apply length_pushTrajectory.
    rewrite pushTrajectory_take by exact Hlen.
    now rewrite take_app_take, reverse_cons, <- app_assoc.
Qed.

End Trajectory.

(** ** The frame *)

Section Frame.

Variable fuel : nat.

(** [draw] pushes the pencil of the frame, or throws with it. *)
Lemma draw_pencil (st : State) (octaves : Z) (wf : string) :
  draw fuel st octaves wf
  = (tip ← pencil fuel (time st) octaves (waveForm wf);
     Some {| time := incrementTime (time st) DT;
             trajectory :=
               pushTrajectory TRAJECTORY_MAX tip
                 (if negb (String.eqb wf (wfPrevious st)) then []
                  else trajectory st);
             wfPrevious := wf |}).
Proof.
  unfold draw, pencil.
  destruct (epicycles fuel (time st) octaves (waveForm wf)) as [epis |];
    [simpl | reflexivity].
  destruct (radialLines (time st) epis) as [radials |]; [simpl | reflexivity].
  now destruct (js_index radials (Z.of_nat (length radials) - 1)).
Qed.

(** A frame whose identifier differs from the previous one leaves the
    pencil of that frame alone in the trajectory. *)
Lemma draw_changed (st : State) (octaves : Z) (wf : string) :
  (1 <= octaves <= Z.of_nat fuel)%Z -> wf <> wfPrevious st ->
  exists tip st',
    pencil fuel (time st) octaves (waveForm wf) = Some tip /\
    draw fuel st octaves wf = Some st' /\
    trajectory st' = [tip] /\ wfPrevious st' = wf.
Proof.
  intros Hoct Hwf. rewrite draw_pencil, pencil_tip by exact Hoct.
  eexists _, _. split; [reflexivity |]. split; [reflexivity |]. simpl.
  apply String.eqb_neq in Hwf. rewrite Hwf. split; reflexivity.
Qed.

(** A frame keeps the invariant of the journal. *)
Lemma draw_single_waveform (st : State) (octaves : Z) (wf : string)
    (journal : list (string * p5.Vector)) :
  (1 <= octaves <= Z.of_nat fuel)%Z ->
  length (trajectory st) <= TRAJECTORY_MAX ->
  single_waveform journal st ->
  exists tip st',
    pencil fuel (time st) octaves (waveForm wf) = Some tip /\
    draw fuel st octaves wf = Some st' /\
    length (trajectory st') <= TRAJECTORY_MAX /\
    single_waveform ((wf, tip) :: journal) st'.
Proof.
  intros Hoct Hlen (k & Htr & Hall).
  rewrite draw_pencil, pencil_tip by exact Hoct.
  eexists _, _. split; [reflexivity |]. split; [reflexivity |].
  cbn [trajectory wfPrevious mbind option_bind].
  set (tip := tipFrom _ _ _ _ _).
  destruct (String.eqb_spec wf (wfPrevious st)) as [Hsame | Hdiff]; simpl negb; cbv iota.
  - split; [now apply length_pushTrajectory |].
    exists (Nat.min TRAJECTORY_MAX (S k)). unfold single_waveform. cbn [trajectory wfPrevious].
    rewrite pushTrajectory_take by exact Hlen.
    rewrite <- take_take. cbn [take]. fold (take k journal). split.
    + rewrite fmap_take, Htr. reflexivity.
    + apply Forall_take. constructor; [reflexivity |].
      now rewrite Hsame.
  - split; [simpl; unfold TRAJECTORY_MAX; lia |].
    exists 1. cbn [trajectory wfPrevious]. split; [reflexivity |].
    simpl. now repeat constructor.
Qed.

Lemma frames_single_waveform (ins : list (Z * string)) :
  forall (st : State) (journal : list (string * p5.Vector)),
    Forall (playable fuel) ins ->
    length (trajectory st) <= TRAJECTORY_MAX ->
    single_waveform journal st ->
    exists added st',
      frames fuel st ins journal = Some (added ++ journal, st') /\
      added.*1 = reverse ins.*2 /\
      length (trajectory st') <= TRAJECTORY_MAX /\
      single_waveform (added ++ journal) st'.
Proof.
  induction ins as [| [octaves wf] ins IH]; intros st journal Hins Hlen Hinv.
  - exists [], st. now split.
  - inversion Hins as [| ? ? Hoct Hins']; subst.
    destruct (draw_single_waveform st octaves wf journal Hoct Hlen Hinv)
      as (tip & st1 & Htip & Hdraw & Hlen1 & Hinv1).
    cbn [frames]. rewrite Htip, Hdraw. simpl.
    destruct (IH st1 ((wf, tip) :: journal) Hins' Hlen1 Hinv1)
      as (added & st' & Hrun & Hids & Hlen' & Hinv').
    exists (added ++ [(wf, tip)]), st'. rewrite <- app_assoc. simpl.
    split; [exact Hrun |]. split; [| now split].
    rewrite fmap_app, Hids, reverse_cons. reflexivity.
Qed.

(** A frame without octaves has no pencil: reading [p2] of
    [radials[-1]] throws, or the builder never returns. *)
Lemma draw_no_octave (st : State) (octaves : Z) (wf : string) :
  (octaves <= 0)%Z -> draw fuel st octaves wf = None.
Proof.
  intros Hoct. rewrite draw_pencil. now rewrite pencil_none.
Qed.

(** A frame keeps the trajectory within the 512 points of [draw]. *)
Lemma draw_trajectory_bounded (st st' : State) (octaves : Z) (wf : string) :
  length (trajectory st) <= 512 -> draw fuel st octaves wf = Some st' ->
  length (trajectory st') <= 512.
Proof.
  intros Hlen. rewrite draw_pencil.
  destruct (pencil fuel (time st) octaves (waveForm wf)) as [tip |];
    [simpl | discriminate].
  intros [= <-]. cbn [trajectory]. apply length_pushTrajectory.
  destruct (negb (String.eqb wf (wfPrevious st))); [simpl; lia | exact Hlen].
Qed.

End Frame.

(** C4: whatever the points pushed from the empty trajectory, its length
    stays within the capacity [C], which is 512 in [draw].  A push puts the
    point in front; on a full trajectory it then drops one point, the last
    one, which is the earliest pushed among those present, and the others
    keep their order: the trajectory is always made of the latest [C]
    points, latest first. *)
Theorem trajectory_bounded_fifo (C : nat) (ps : list p5.Vector) :
  (forall (fuel : nat) (st st' : State) (octaves : Z) (wf : string),
     length (trajectory st) <= 512 -> draw fuel st octaves wf = Some st' ->
     length (trajectory st') <= 512) /\
  let buf := pushAll C ps [] in
  length buf <= C /\
  buf = take C (reverse ps) /\
  forall p : p5.Vector,
    length (pushTrajectory C p buf) <= C /\
    (length buf < C -> pushTrajectory C p buf = p :: buf) /\
    (length buf = C -> 0 < C ->
       exists front oldest,
         buf = front ++ [oldest] /\
         pushTrajectory C p buf = p :: front /\
         ps !! (length ps - C) = Some oldest).
Proof.
  split; [exact draw_trajectory_bounded |]. intros buf.
  assert (buf = take C (reverse ps)) as Hbuf.
  { unfold buf. rewrite pushAll_take by (simpl; lia). now rewrite app_nil_r. }
  assert (length buf <= C) as Hlen.
  { rewrite Hbuf, length_take. lia. }
  split; [exact Hlen |]. split; [exact Hbuf |].
  intros p. split; [now apply length_pushTrajectory |].
  rewrite pushTrajectory_take by exact Hlen. split.
  - intros Hroom. apply take_ge. simpl. lia.
  - intros Hfull HC.
    destruct buf as [| b buf'] using rev_ind; [simpl in Hfull; lia |].
    clear IHbuf'. exists buf', b. split; [reflexivity |].
    rewrite length_app in Hfull. simpl in Hfull. split.
    + replace C with (S (length buf')) by lia. simpl.
      now rewrite take_app_length.
    + assert (length (take C (reverse ps)) = C) as HlenC.
      { rewrite <- Hbuf, length_app. simpl. lia. }
      rewrite length_take, length_reverse in HlenC.
      assert ((buf' ++ [b]) !! (C - 1) = Some b) as Hb.
      { replace (C - 1) with (length buf') by lia. apply list_lookup_middle.
        reflexivity. }
      rewrite Hbuf, lookup_take_lt, reverse_lookup in Hb by lia.
      rewrite <- Hb. f_equal. lia.
Qed.

Lemma trajectory_bounded_fifo_witness :
  let a := p5.createVector 1 1 in
  let b := p5.createVector 2 2 in
  let c := p5.createVector 3 3 in
  pushAll 2 [a; b; c] [] = [c; b] /\ length (pushAll 2 [a; b; c] []) <= 2.
Proof.
  intros a b c.
  destruct (trajectory_bounded_fifo 2 [a; b; c]) as (_ & Hlen & Hbuf & _).
  split; [exact Hbuf | exact Hlen].
Defined.

(** C7: a frame whose identifier differs from the one of the frame before
    empties the trajectory before it pushes its pencil, which is then the
    only point; and in any run of frames from [setup] the points of the
    trajectory are pencil positions of the latest frames, all of which ran
    under the current identifier, so that no two points come from
    different identifiers. *)
Theorem trajectory_single_waveform (fuel : nat) (ins : list (Z * string)) :
  Forall (playable fuel) ins ->
  (forall (st : State) (octaves : Z) (wf : string),
     playable fuel (octaves, wf) -> wf <> wfPrevious st ->
     exists tip st',
       pencil fuel (time st) octaves (waveForm wf) = Some tip /\
       draw fuel st octaves wf = Some st' /\
       trajectory st' = [tip] /\ wfPrevious st' = wf) /\
  exists journal st',
    frames fuel setup ins [] = Some (journal, st') /\
    journal.*1 = reverse ins.*2 /\
    single_waveform journal st'.
Proof.
  intros Hins. split.
  - intros st octaves wf Hoct Hwf. now apply draw_changed.
  - destruct (frames_single_waveform fuel ins setup [] Hins)
      as (journal & st' & Hrun & Hids & _ & Hinv).
    + simpl. lia.
    + exists 0. split; [reflexivity | constructor].
    + rewrite app_nil_r in Hrun, Hinv.
      exists journal, st'. split; [exact Hrun |]. now split.
Qed.

Lemma trajectory_single_waveform_witness :
  exists journal st',
    frames 5 setup [(5%Z, "square"); (5%Z, "sin")] [] = Some (journal, st') /\
    journal.*1 = ["sin"; "square"] /\
    single_waveform journal st'.
Proof.
  assert (Forall (playable 5) [(5%Z, "square"); (5%Z, "sin")]) as Hins.
  { repeat constructor; simpl; lia. }
  exact (proj2 (trajectory_single_waveform 5 _ Hins)).
Defined.

(** * Further properties of the sketch *)

(** ** The generators *)

Lemma Rdiv_pos_lt (a k1 k2 : R) :
  (0 < a)%R -> (0 < k1 < k2)%R -> (a / (k2 * PI) < a / (k1 * PI))%R.
Proof.
  intros Ha [Hk1 Hk12]. pose proof PI_RGT_0 as Hpi.
  unfold Rdiv. apply Rmult_lt_compat_l; [exact Ha |].
  apply Rinv_lt_contravar.
  - apply Rmult_lt_0_compat; apply Rmult_lt_0_compat; lra.
  - apply Rmult_lt_compat_r; lra.
Qed.

Lemma SCALE_pos : (0 < SCALE)%R.
Proof. unfold SCALE. lra. Qed.

(** X1: the square wave uses the odd harmonics, with positive amplitudes that
    decrease strictly from octave to octave. *)
Theorem squareWave_odd_decreasing (o : Octave) :
  (exists k : Z, Z.odd k = true /\ (1 <= k)%Z /\
                 angularVelocity (squareWave o) = IZR k) /\
  (0 < amplitude (squareWave o))%R /\
  (amplitude (squareWave (S o)) < amplitude (squareWave o))%R /\
  initialOffset (squareWave o) = 0%R.
Proof.
  pose proof SCALE_pos as HS. pose proof PI_RGT_0 as Hpi.
  assert (forall i : nat, (0 < IZR (2 * Z.of_nat i + 1))%R) as Hk.
  { intros i. apply IZR_lt. lia. }
  split; [| split; [| split; [| reflexivity]]].
  - exists (2 * Z.of_nat o + 1)%Z. split; [| split; [lia | reflexivity]].
    rewrite Z.add_comm, Z.odd_add_mul_2. reflexivity.
  - unfold squareWave; simpl. apply Rdiv_lt_0_compat; [lra |].
    apply Rmult_lt_0_compat; [apply Hk | exact Hpi].
  - unfold squareWave; cbn [amplitude]. apply Rdiv_pos_lt; [lra |].
    split; [apply Hk |]. apply IZR_lt. lia.
Qed.

Lemma saw_sign (o : Octave) :
  (if (Z.rem (Z.of_nat o + 1) 2 =? 0)%Z then 1%Z else (-1)%Z)
  = if Nat.even o then (-1)%Z else 1%Z.
Proof.
  rewrite Z.rem_mod_nonneg by lia.
  destruct (Nat.even o) eqn:Heven.
  - apply Nat.even_spec in Heven. destruct Heven as [m ->].
    rewrite <- (Z.mod_unique (Z.of_nat (2 * m) + 1) 2 (Z.of_nat m) 1) by lia.
    reflexivity.
  - assert (Nat.odd o = true) as Hodd by (unfold Nat.odd; now rewrite Heven).
    apply Nat.odd_spec in Hodd. destruct Hodd as [m ->].
    rewrite <- (Z.mod_unique (Z.of_nat (2 * m + 1) + 1) 2 (Z.of_nat m + 1) 0)
      by lia.
    reflexivity.
Qed.

(** X2: the sawtooth uses every harmonic [k = o + 1] at the even angular
    velocity [2k]; its amplitude has the size [2A/(k pi)], negative on the
    octaves of even rank and positive on the others. *)
Theorem sawWave_alternates (o : Octave) :
  angularVelocity (sawWave o) = IZR (2 * (Z.of_nat o + 1)) /\
  Rabs (amplitude (sawWave o)) = (2 * SCALE / (IZR (Z.of_nat o + 1) * PI))%R /\
  (if Nat.even o then (amplitude (sawWave o) < 0)%R
   else (0 < amplitude (sawWave o))%R) /\
  initialOffset (sawWave o) = 0%R.
Proof.
  pose proof SCALE_pos as HS. pose proof PI_RGT_0 as Hpi.
  assert (0 < IZR (Z.of_nat o + 1))%R as Hk by (apply IZR_lt; lia).
  assert (0 < 2 * SCALE / (IZR (Z.of_nat o + 1) * PI))%R as Hpos.
  { apply Rdiv_lt_0_compat; [lra |]. now apply Rmult_lt_0_compat. }
  split; [unfold sawWave; simpl; rewrite mult_IZR; reflexivity |].
  assert (amplitude (sawWave o)
          = (IZR (if Nat.even o then (-1)%Z else 1%Z)
             * (2 * SCALE / (IZR (Z.of_nat o + 1) * PI)))%R) as Hamp.
  { unfold sawWave; cbn [amplitude]. rewrite saw_sign.
    destruct (Nat.even o); field; lra. }
  rewrite Hamp. split; [| split; [| reflexivity]].
  - destruct (Nat.even o).
    + rewrite Rabs_left; lra.
    + rewrite Rabs_right; lra.
  - destruct (Nat.even o); lra.
Qed.

Lemma waveForm_cases (name : string) :
  waveForm name = squareWave \/ waveForm name = sawWave \/
  waveForm name = lolWave.
Proof.
  unfold waveForm, wfs.
  destruct (decide (name = "sin")) as [-> | Hsin]; [now right; right |].
  destruct (decide (name = "sawtooth")) as [-> | Hsaw]; [now right; left |].
  destruct (decide (name = "square")) as [-> | Hsq]; [now left |].
  rewrite !lookup_insert_ne by congruence. rewrite lookup_empty. now left.
Qed.

(** X3: the three names of the catalogue resolve to three different
    generators, and every name resolves to one of them. *)
Theorem waveForm_catalogue (name : string) :
  (waveForm name = squareWave \/ waveForm name = sawWave \/
   waveForm name = lolWave) /\
  waveForm "square" = squareWave /\
  waveForm "sawtooth" = sawWave /\
  waveForm "sin" = lolWave /\
  waveForm "square" <> waveForm "sawtooth" /\
  waveForm "square" <> waveForm "sin" /\
  waveForm "sawtooth" <> waveForm "sin".
Proof.
  split; [apply waveForm_cases |].
  change (waveForm "square") with squareWave.
  change (waveForm "sawtooth") with sawWave.
  change (waveForm "sin") with lolWave.
  assert (angularVelocity (squareWave 0) = 1%R) as Hsq by reflexivity.
  pose proof SCALE_pos as HS. pose proof PI_RGT_0 as Hpi.
  assert (0 < SCALE * 2 / PI)%R as Hq by (apply Rdiv_lt_0_compat; lra).
  assert (angularVelocity (sawWave 0) = 2%R) as Hsaw.
  { unfold sawWave; cbn [angularVelocity].
    change (Z.of_nat 0 + 1)%Z with 1%Z. lra. }
  pose proof (lolWave_angularVelocity 0) as Hlol.
  assert (amplitude (sawWave 0%nat) < 0)%R as Hneg.
  { unfold sawWave; cbn [amplitude]. change (Z.of_nat 0 + 1)%Z with 1%Z.
    change (Z.rem 1 2 =? 0)%Z with false. cbv iota.
    replace (SCALE * 2 / (-1 * 1 * PI))%R with (- (SCALE * 2 / PI))%R
      by (field; lra).
    lra. }
  assert (0 < amplitude (lolWave 0%nat))%R as Hposl.
  { unfold lolWave; cbn [amplitude].
    change (2 * (Z.of_nat 0 + 1))%Z with 2%Z.
    replace (SCALE * 4 / (2 * PI))%R with (SCALE * 2 / PI)%R by (field; lra).
    exact Hq. }
  repeat split; try reflexivity.
  - intros Heq. rewrite Heq in Hsq. lra.
  - intros Heq. rewrite Heq in Hsq. lra.
  - intros Heq. rewrite Heq in Hneg. lra.
Qed.

(** ** Time *)

Lemma cos_shift (x : R) (m : Z) : cos (x + 2 * IZR m * PI) = cos x.
Proof.
  destruct (Z.le_gt_cases 0 m) as [Hpos | Hneg].
  - rewrite <- (Z2Nat.id m Hpos), <- INR_IZR_INZ. apply cos_period.
  - rewrite <- (cos_period (x + 2 * IZR m * PI) (Z.to_nat (- m))).
    f_equal. rewrite INR_IZR_INZ, Z2Nat.id by lia. rewrite opp_IZR. ring.
Qed.

Lemma sin_shift (x : R) (m : Z) : sin (x + 2 * IZR m * PI) = sin x.
Proof.
  destruct (Z.le_gt_cases 0 m) as [Hpos | Hneg].
  - rewrite <- (Z2Nat.id m Hpos), <- INR_IZR_INZ. apply sin_period.
  - rewrite <- (sin_period (x + 2 * IZR m * PI) (Z.to_nat (- m))).
    f_equal. rewrite INR_IZR_INZ, Z2Nat.id by lia. rewrite opp_IZR. ring.
Qed.

Section Period.

Variables (t : Time) (q : Z) (wf : WaveForm).

Hypothesis wf_harmonic : harmonic wf.

Let t' : Time := (t + 2 * IZR q * PI)%R.

(** A whole number of turns later the next centre is the same. *)
Lemma nextEpicylePos_shift (c : p5.Vector) (o : Octave) :
  nextEpicylePos t' {| pos := c; wave := wf o |}
  = nextEpicylePos t {| pos := c; wave := wf o |}.
Proof.
  destruct (wf_harmonic o) as [m Hm].
  unfold nextEpicylePos, t'. cbn [wave pos]. rewrite Hm.
  replace (- ((t + 2 * IZR q * PI) * IZR m + initialOffset (wf o)))%R
    with (- (t * IZR m + initialOffset (wf o)) + 2 * IZR (- (q * m)) * PI)%R
    by (rewrite opp_IZR, mult_IZR; ring).
  now rewrite cos_shift, sin_shift.
Qed.

Lemma tipFrom_shift (m : nat) :
  forall (c : p5.Vector) (o : Octave),
    tipFrom t' wf c o m = tipFrom t wf c o m.
Proof.
  induction m as [| m IH]; intros c o; simpl; [reflexivity |].
  now rewrite nextEpicylePos_shift, IH.
Qed.

Lemma chainFrom_shift (m : nat) :
  forall (c : p5.Vector) (o : Octave),
    chainFrom t' wf c o m = chainFrom t wf c o m.
Proof.
  induction m as [| m IH]; intros c o; simpl; [reflexivity |].
  now rewrite nextEpicylePos_shift, IH.
Qed.

Lemma radialsOf_chain_shift (m : nat) :
  radialsOf t' (chainFrom t wf (p5.createVector 0 0) 0 m)
  = radialsOf t (chainFrom t wf (p5.createVector 0 0) 0 m).
Proof.
  apply list_eq. intros i.
  destruct (Nat.lt_ge_cases i m) as [Hi | Hi].
  - rewrite <- chainFrom_shift at 1.
    rewrite !chain_radial_lookup by exact Hi. now rewrite !tipFrom_shift.
  - rewrite !lookup_ge_None_2; [reflexivity | |];
      now rewrite length_radialsOf, length_chainFrom.
Qed.

Lemma epicycles_shift (fuel : nat) (n : Z) :
  epicycles fuel t' n wf = epicycles fuel t n wf.
Proof.
  destruct (decide (0 <= n <= Z.of_nat fuel)%Z) as [Hn | Hn].
  - rewrite !epicycles_chain by exact Hn. now rewrite chainFrom_shift.
  - destruct (epicycles fuel t' n wf) as [epis |] eqn:H1.
    { exfalso. apply Hn. apply (epicycles_Some_iff t' wf). eauto. }
    destruct (epicycles fuel t n wf) as [epis |] eqn:H2; [| reflexivity].
    exfalso. apply Hn. apply (epicycles_Some_iff t wf). eauto.
Qed.

End Period.

Lemma waveForm_harmonic (name : string) : harmonic (waveForm name).
Proof.
  intros o. destruct (waveForm_cases name) as [-> | [-> | ->]].
  - eexists. reflexivity.
  - exists (2 * (Z.of_nat o + 1))%Z. unfold sawWave; simpl.
    now rewrite mult_IZR.
  - exists 2%Z. apply lolWave_angularVelocity.
Qed.



Lemma TWO_PI_pos : (0 < TWO_PI)%R.
Proof. unfold TWO_PI. pose proof PI_RGT_0. lra. Qed.

(** The remainder of a dividend that is not negative. *)
Lemma js_rem_nonneg (a b : R) :
  (0 <= a)%R -> (0 < b)%R ->
  js_rem a b = (a - b * IZR (Zfloor (a / b)))%R /\ (0 <= js_rem a b < b)%R.
Proof.
  intros Ha Hb.
  assert (0 <= a / b)%R as Hq.
  { apply Rmult_le_pos; [exact Ha |]. apply Rlt_le. now apply Rinv_0_lt_compat. }
  assert (js_rem a b = (a - b * IZR (Zfloor (a / b)))%R) as Heq.
  { unfold js_rem, Rtrunc. destruct (Rle_dec 0 (a / b)); [reflexivity | tauto]. }
  split; [exact Heq |]. rewrite Heq.
  pose proof (Zfloor_bound (a / b)) as [Hlo Hhi].
  assert (a = b * (a / b))%R as Hab by (field; lra).
  apply (Rmult_le_compat_l b) in Hlo; [| lra].
  apply (Rmult_lt_compat_l b) in Hhi; [| lra].
  rewrite <- Hab in Hlo, Hhi. lra.
Qed.

(** The remainder of a negative dividend is not positive. *)
Lemma js_rem_neg (a b : R) :
  (a < 0)%R -> (0 < b)%R -> (- b < js_rem a b <= 0)%R.
Proof.
  intros Ha Hb.
  assert (a / b < 0)%R as Hq.
  { unfold Rdiv. rewrite <- (Rmult_0_l (/ b)).
    apply Rmult_lt_compat_r; [now apply Rinv_0_lt_compat | exact Ha]. }
  unfold js_rem, Rtrunc. destruct (Rle_dec 0 (a / b)) as [Hle | _]; [lra |].
  pose proof (Zceil_bound (a / b)) as [Hlo Hhi].
  assert (a = b * (a / b))%R as Hab by (field; lra).
  apply (Rmult_lt_compat_l b) in Hlo; [| lra].
  apply (Rmult_le_compat_l b) in Hhi; [| lra].
  rewrite <- Hab in Hlo, Hhi. lra.
Qed.

(** X5: [incrementTime] keeps a time that is not negative in [0, 2 pi), leaves
    a sum below one turn as it is, takes one turn off below two turns, and
    gives a negative sum a remainder of its own sign. *)
Theorem incrementTime_range (t : Time) (dt : R) :
  ((0 <= t + dt)%R -> (0 <= incrementTime t dt < TWO_PI)%R) /\
  ((0 <= t + dt < TWO_PI)%R -> incrementTime t dt = (t + dt)%R) /\
  ((TWO_PI <= t + dt < 2 * TWO_PI)%R ->
     incrementTime t dt = (t + dt - TWO_PI)%R) /\
  ((t + dt < 0)%R -> (- TWO_PI < incrementTime t dt <= 0)%R).
Proof.
  pose proof TWO_PI_pos as Hpos. unfold incrementTime.
  split; [| split; [| split]].
  - intros Hsum. now apply js_rem_nonneg.
  - intros [Hlo Hhi].
    destruct (js_rem_nonneg (t + dt) TWO_PI Hlo Hpos) as [-> _].
    rewrite (Zfloor_eq 0).
    + lra.
    + split.
      * apply Rmult_le_pos; [exact Hlo |].
        apply Rlt_le. now apply Rinv_0_lt_compat.
      * apply (Rmult_lt_reg_r TWO_PI); [exact Hpos |].
        unfold Rdiv. rewrite Rmult_assoc, Rinv_l by lra. lra.
  - intros [Hlo Hhi].
    destruct (js_rem_nonneg (t + dt) TWO_PI ltac:(lra) Hpos) as [-> _].
    rewrite (Zfloor_eq 1).
    + lra.
    + split.
      * apply (Rmult_le_reg_r TWO_PI); [exact Hpos |].
        unfold Rdiv. rewrite Rmult_assoc, Rinv_l by lra. lra.
      * apply (Rmult_lt_reg_r TWO_PI); [exact Hpos |].
        unfold Rdiv. rewrite Rmult_assoc, Rinv_l by lra. lra.
  - intros Hneg. now apply js_rem_neg.
Qed.

Lemma incrementTime_range_witness :
  (0 <= incrementTime 0 DT < TWO_PI)%R.
Proof.
  apply (proj1 (incrementTime_range 0%R DT)). unfold DT. lra.
Defined.


(** ** Geometry of the chain *)

(** The next centre lies at the distance of the amplitude. *)
Lemma nextEpicylePos_dist2 (t : Time) (e : Epicycle) :
  dist2 (pos e) (nextEpicylePos t e) = (amplitude (wave e) ^ 2)%R.
Proof.
  unfold dist2, nextEpicylePos. cbn [p5.x p5.y].
  set (theta := (- (t * angularVelocity (wave e) + initialOffset (wave e)))%R).
  pose proof (sin2_cos2 theta) as Hone. unfold Rsqr in Hone.
  replace ((amplitude (wave e) * cos theta + p5.x (pos e) - p5.x (pos e)) ^ 2
           + (amplitude (wave e) * sin theta + p5.y (pos e) - p5.y (pos e)) ^ 2)%R
    with (amplitude (wave e) ^ 2 * (sin theta * sin theta + cos theta * cos theta))%R
    by ring.
  rewrite Hone. ring.
Qed.



Lemma chainFrom_app (t : Time) (wf : WaveForm) (m j : nat) :
  forall (c : p5.Vector) (o : Octave),
    chainFrom t wf c o (m + j)
    = chainFrom t wf c o m ++ chainFrom t wf (tipFrom t wf c o m) (o + m) j.
Proof.
  induction m as [| m IH]; intros c o; simpl.
  - now rewrite Nat.add_0_r.
  - rewrite IH. now rewrite Nat.add_succ_r.
Qed.

(** X8: asking for more octaves only adds epicycles at the end of the chain:
    the chain of [n] octaves is the beginning of the chain of any larger
    count. *)
Theorem epicycles_prefix (fuel : nat) (t : Time) (n n' : Z) (wf : WaveForm) :
  (0 <= n <= n')%Z -> (n' <= Z.of_nat fuel)%Z ->
  exists epis epis',
    epicycles fuel t n wf = Some epis /\
    epicycles fuel t n' wf = Some epis' /\
    take (Z.to_nat n) epis' = epis /\
    epis `prefix_of` epis'.
Proof.
  intros Hn Hn'. rewrite !epicycles_chain by lia.
  eexists _, _. split; [reflexivity |]. split; [reflexivity |].
  replace (Z.to_nat n') with (Z.to_nat n + (Z.to_nat n' - Z.to_nat n)) by lia.
  rewrite chainFrom_app. split.
  - rewrite take_app_length'; [reflexivity |]. now rewrite length_chainFrom.
  - now apply prefix_app_r.
Qed.

Lemma epicycles_prefix_witness :
  exists epis epis',
    epicycles 24 0%R 5 squareWave = Some epis /\
    epicycles 24 0%R 6 squareWave = Some epis' /\
    take 5 epis' = epis.
Proof.
  destruct (epicycles_prefix 24 0%R 5 6 squareWave ltac:(lia) ltac:(lia))
    as (epis & epis' & H1 & H2 & H3 & _).
  exists epis, epis'. split; [exact H1 |]. split; [exact H2 | exact H3].
Defined.



(** ** Frames *)

Lemma pencil_Some_iff (fuel : nat) (t : Time) (n : Z) (wf : WaveForm) :
  is_Some (pencil fuel t n wf) <-> (1 <= n <= Z.of_nat fuel)%Z.
Proof.
  split.
  - intros [tip Htip].
    destruct (Z.le_gt_cases n 0) as [Hle | Hpos].
    { rewrite pencil_none in Htip by exact Hle. discriminate. }
    unfold pencil in Htip.
    destruct (epicycles fuel t n wf) as [epis |] eqn:Hepi; [| discriminate].
    assert (0 <= n <= Z.of_nat fuel)%Z
      by (apply (epicycles_Some_iff t wf); eauto).
    lia.
  - intros Hn. rewrite pencil_tip by exact Hn. eauto.
Qed.

Lemma pushTrajectory_head (C : nat) (p : p5.Vector) (tr : Trajectory) :
  1 <= C -> pushTrajectory C p tr !! 0 = Some p.
Proof.
  intros HC. unfold pushTrajectory.
  destruct (Nat.ltb_spec C (length (p :: tr))) as [Hfull | _]; [| reflexivity].
  destruct tr as [| p' tr]; [simpl in Hfull; lia | reflexivity].
Qed.

(** X10: a frame completes exactly when the slider gives at least one octave
    and the recursion of the builder fits in the stack: with no octave
    [draw] throws on the missing last radial line, and with a negative
    count the builder never returns. *)
Theorem draw_completes_iff (fuel : nat) (st : State) (octaves : Z)
    (wf : string) :
  is_Some (draw fuel st octaves wf) <-> (1 <= octaves <= Z.of_nat fuel)%Z.
Proof.
  rewrite draw_pencil. split.
  - intros [st' Hdraw].
    apply (pencil_Some_iff fuel (time st) octaves (waveForm wf)).
    destruct (pencil fuel (time st) octaves (waveForm wf)) as [tip |];
      [eexists; reflexivity | discriminate].
  - intros Hoct. rewrite pencil_tip by exact Hoct. eexists. reflexivity.
Qed.

(** X11: on every value the slider can give, from 2 to 24, and every name, a
    frame completes; it remembers the name, steps the time, and leaves the
    pencil of the frame at the head of a trajectory of 1 to 512 points. *)
Theorem draw_on_slider (fuel : nat) (st : State) (octaves : Z) (wf : string) :
  (2 <= octaves <= 24)%Z -> 24 <= fuel ->
  length (trajectory st) <= 512 ->
  exists tip st',
    pencil fuel (time st) octaves (waveForm wf) = Some tip /\
    draw fuel st octaves wf = Some st' /\
    wfPrevious st' = wf /\
    time st' = incrementTime (time st) DT /\
    trajectory st' !! 0 = Some tip /\
    1 <= length (trajectory st') <= 512.
Proof.
  intros Hoct Hfuel Hlen.
  rewrite draw_pencil, pencil_tip by lia. eexists _, _.
  split; [reflexivity |]. split; [reflexivity |]. cbn [wfPrevious time trajectory].
  split; [reflexivity |]. split; [reflexivity |].
  set (tr := if negb (String.eqb wf (wfPrevious st)) then [] else trajectory st).
  assert (length tr <= 512) as Htr.
  { unfold tr. destruct (negb (String.eqb wf (wfPrevious st))); [simpl; lia | exact Hlen]. }
  pose proof (pushTrajectory_head TRAJECTORY_MAX
                (tipFrom (time st) (waveForm wf) (p5.createVector 0 0) 0
                   (Z.to_nat octaves)) tr ltac:(unfold TRAJECTORY_MAX; lia)) as Hhead.
  split; [exact Hhead |]. split.
  - apply lookup_lt_Some in Hhead. exact Hhead.
  - now apply length_pushTrajectory.
Qed.

Lemma draw_on_slider_witness :
  exists tip st',
    pencil 24 0%R 5 (waveForm "square") = Some tip /\
    draw 24 setup 5 "square" = Some st' /\
    trajectory st' !! 0 = Some tip.
Proof.
  destruct (draw_on_slider 24 setup 5 "square" ltac:(lia) ltac:(lia))
    as (tip & st' & Htip & Hdraw & _ & _ & Hhead & _).
  - simpl. lia.
  - exists tip, st'. split; [exact Htip |]. split; [exact Hdraw | exact Hhead].
Defined.

Lemma incrementTime_nonneg (t : Time) (dt : R) :
  (0 <= t + dt)%R -> (0 <= incrementTime t dt < TWO_PI)%R.
Proof.
  intros Hsum. unfold incrementTime.
  now apply js_rem_nonneg; [| apply TWO_PI_pos].
Qed.

Section Run.

Variable fuel : nat.

(** While the name does not change, the frames only push. *)
Lemma frames_same_name (ins : list (Z * string)) :
  forall (st : State) (journal : list (string * p5.Vector)),
    Forall (playable fuel) ins ->
    Forall (fun input => input.2 = wfPrevious st) ins ->
    length (trajectory st) <= TRAJECTORY_MAX ->
    exists added st',
      frames fuel st ins journal = Some (added ++ journal, st') /\
      length added = length ins /\
      wfPrevious st' = wfPrevious st /\
      trajectory st' = take TRAJECTORY_MAX (added.*2 ++ trajectory st).
Proof.
  induction ins as [| [octaves wf] ins IH]; intros st journal Hplay Hname Hlen.
  - exists [], st. simpl. split; [reflexivity |]. split; [reflexivity |].
    split; [reflexivity |]. now rewrite take_ge.
  - inversion Hplay as [| ? ? Hoct Hplay']; subst.
    inversion Hname as [| ? ? Hwf Hname']; subst. simpl in Hwf. subst wf.
    cbn [frames]. rewrite draw_pencil, pencil_tip by exact Hoct. simpl.
    rewrite String.eqb_refl. simpl.
    set (tip := tipFrom _ _ _ _ _).
    set (st1 := {| time := incrementTime (time st) DT;
                   trajectory := pushTrajectory TRAJECTORY_MAX tip (trajectory st);
                   wfPrevious := wfPrevious st |}).
    destruct (IH st1 ((wfPrevious st, tip) :: journal) Hplay' Hname')
      as (added & st' & Hrun & Hadded & Hprev & Htraj).
    { now apply length_pushTrajectory. }
    exists (added ++ [(wfPrevious st, tip)]), st'.
    rewrite <- app_assoc. split; [exact Hrun |].
    split; [rewrite length_app; simpl; lia |]. split; [exact Hprev |].
    rewrite Htraj. cbn [trajectory st1].
    rewrite pushTrajectory_take by exact Hlen.
    rewrite take_app_take, fmap_app, <- app_assoc. reflexivity.
Qed.

(** The time of a run: each frame adds [DT] and takes whole turns off. *)
Lemma frames_time (ins : list (Z * string)) :
  forall (st : State) (journal journal' : list (string * p5.Vector))
         (st' : State),
    frames fuel st ins journal = Some (journal', st') ->
    (0 <= time st < TWO_PI)%R ->
    (0 <= time st' < TWO_PI)%R /\
    exists q : Z,
      time st' = (time st + INR (length ins) * DT - IZR q * TWO_PI)%R.
Proof.
  induction ins as [| [octaves wf] ins IH];
    intros st journal journal' st' Hrun Ht.
  - injection Hrun as _ <-. split; [exact Ht |]. exists 0%Z. simpl. lra.
  - cbn [frames] in Hrun. rewrite draw_pencil in Hrun.
    destruct (pencil fuel (time st) octaves (waveForm wf)) as [tip |];
      [| discriminate].
    simpl in Hrun. apply IH in Hrun; cbn [time] in *.
    + destruct Hrun as [Hrange [q Hq]]. split; [exact Hrange |].
      exists (q + Rtrunc ((time st + DT) / TWO_PI))%Z.
      rewrite Hq. unfold incrementTime, js_rem, Time.
      rewrite plus_IZR. change (length ((octaves, wf) :: ins)) with (S (length ins)).
      rewrite S_INR. ring.
    + apply incrementTime_nonneg. unfold DT. lra.
Qed.

End Run.

(** X12: while the select keeps its name the trajectory is never emptied: after
    the frames it holds their pencils, latest first, in front of the points
    it had, cut at 512 points. *)
Theorem trajectory_kept_while_same_name (fuel : nat) (st : State)
    (ins : list (Z * string)) :
  Forall (playable fuel) ins ->
  Forall (fun input => input.2 = wfPrevious st) ins ->
  length (trajectory st) <= 512 ->
  exists journal st',
    frames fuel st ins [] = Some (journal, st') /\
    length journal = length ins /\
    trajectory st' = take 512 (journal.*2 ++ trajectory st) /\
    length (trajectory st') = Nat.min 512 (length ins + length (trajectory st)).
Proof.
  intros Hplay Hname Hlen.
  destruct (frames_same_name fuel ins st [] Hplay Hname Hlen)
    as (added & st' & Hrun & Hadded & _ & Htraj).
  rewrite app_nil_r in Hrun. exists added, st'.
  split; [exact Hrun |]. split; [exact Hadded |]. split; [exact Htraj |].
  rewrite Htraj, length_take, length_app, length_fmap, Hadded. reflexivity.
Qed.

Lemma trajectory_kept_while_same_name_witness :
  exists journal st',
    frames 5 setup [(5%Z, "square"); (4%Z, "square")] [] = Some (journal, st') /\
    length (trajectory st') = 2.
Proof.
  destruct (trajectory_kept_while_same_name 5 setup
              [(5%Z, "square"); (4%Z, "square")])
    as (journal & st' & Hrun & _ & _ & Hlen).
  - repeat constructor; simpl; lia.
  - repeat constructor.
  - simpl. lia.
  - exists journal, st'. split; [exact Hrun | exact Hlen].
Defined.



(** ** Drawing *)

Lemma vertices_app (c1 c2 : list Cmd) :
  vertices (c1 ++ c2) = vertices c1 ++ vertices c2.
Proof. unfold vertices. apply omap_app. Qed.

Lemma vertices_imap (tr : Trajectory) :
  forall g : nat -> p5.Vector -> R * R,
    vertices (imap (fun i v => vertex (g i v).1 (g i v).2) tr) = imap g tr.
Proof.
  induction tr as [| v tr IH]; intros g; [reflexivity |].
  cbn [imap]. unfold vertices in *. cbn [omap list_omap].
  f_equal; [now destruct (g 0 v) |].
  apply (IH (fun i => g (S i))).
Qed.

Lemma vertices_map (tr : Trajectory) :
  vertices (map (fun v => vertex (p5.x v) (p5.y v)) tr)
  = (fun v => (p5.x v, p5.y v)) <$> tr.
Proof.
  induction tr as [| v tr IH]; [reflexivity |].
  unfold vertices in *. cbn [map omap list_omap fmap list_fmap].
  now rewrite IH.
Qed.

(** X14: the two curves of a frame come from the same points: [drawTrajectory]
    plots them as they are, [drawWaveForm] plots the same ordinates against
    the rank of the point, so that a trajectory of at most 512 points is
    drawn between the abscissas 0 and 511. *)
Theorem waveform_plot (tr : Trajectory) :
  vertices (drawTrajectory tr) = ((fun v => (p5.x v, p5.y v)) <$> tr) /\
  vertices (drawWaveForm tr) = imap (fun i v => (INR i, p5.y v)) tr /\
  (vertices (drawWaveForm tr)).*2 = (vertices (drawTrajectory tr)).*2 /\
  (length tr <= 512 ->
   Forall (fun vx => (0 <= vx <= 511)%R) (vertices (drawWaveForm tr)).*1).
Proof.
  assert (vertices (drawTrajectory tr) = ((fun v => (p5.x v, p5.y v)) <$> tr))
    as Htraj.
  { unfold drawTrajectory. rewrite !vertices_app. cbn [vertices omap list_omap].
    rewrite app_nil_r. cbn [app]. apply vertices_map. }
  assert (vertices (drawWaveForm tr) = imap (fun i v => (INR i, p5.y v)) tr)
    as Hwave.
  { unfold drawWaveForm. rewrite !vertices_app. cbn [vertices omap list_omap].
    rewrite app_nil_r. cbn [app].
    apply (vertices_imap tr (fun i v => (INR i, p5.y v))). }
  split; [exact Htraj |]. split; [exact Hwave |]. split.
  - rewrite Htraj, Hwave. apply list_eq. intros i.
    rewrite !list_lookup_fmap, list_lookup_imap.
    now rewrite <- !option_fmap_compose.
  - intros Hlen. rewrite Hwave. apply Forall_lookup. intros i vx Hvx.
    rewrite list_lookup_fmap, list_lookup_imap in Hvx.
    apply fmap_Some in Hvx as (pt & Hpt & ->).
    apply fmap_Some in Hpt as (v & Hv & ->).
    apply lookup_lt_Some in Hv. cbn [fst].
    split; [apply pos_INR |].
    replace 511%R with (INR 511) by (simpl; lra).
    apply le_INR. lia.
Qed.

Lemma waveform_plot_witness :
  vertices (drawWaveForm [p5.createVector 3 4; p5.createVector 5 6])
  = [(INR 0, 4%R); (INR 1, 6%R)].
Proof.
  exact (proj1 (proj2
    (waveform_plot [p5.createVector 3 4; p5.createVector 5 6]))).
Defined.

(** ** The first variant *)

Lemma v1_epicyclesRecurse_shift (t : Time) (n : Z) (wf : WaveForm)
    (fuel : nat) :
  forall (c : p5.Vector) (epis : list Epicycle),
    V1.epicyclesRecurse fuel t n wf c epis
    = epicyclesRecurse fuel t (n + 1) wf c epis.
Proof.
  induction fuel as [| fuel IH]; intros c epis; simpl;
    destruct (Z.eqb_spec (Z.of_nat (length epis) - 1) n),
             (Z.eqb_spec (Z.of_nat (length epis)) (n + 1));
    try lia; try reflexivity.
  apply IH.
Qed.

(** X15: the builder of the first variant stops one epicycle late: asked for
    [n] octaves it returns what the later builder returns for [n + 1],
    that is [n + 1] epicycles, and nothing only for [n = -1]. *)
Theorem v1_epicycles_one_more (fuel : nat) (t : Time) (n : Z) (wf : WaveForm) :
  V1.epicycles fuel t n wf = epicycles fuel t (n + 1) wf /\
  (is_Some (V1.epicycles fuel t n wf) <-> (-1 <= n < Z.of_nat fuel)%Z) /\
  (forall epis, V1.epicycles fuel t n wf = Some epis ->
     Z.of_nat (length epis) = (n + 1)%Z) /\
  (forall o, V1.squareWave o = squareWave o).
Proof.
  assert (V1.epicycles fuel t n wf = epicycles fuel t (n + 1) wf) as Heq
    by apply v1_epicyclesRecurse_shift.
  split; [exact Heq |]. rewrite Heq. split; [| split; [| reflexivity]].
  - rewrite epicycles_Some_iff. lia.
  - intros epis Hrun.
    assert (0 <= n + 1 <= Z.of_nat fuel)%Z as Hn
      by (apply (epicycles_Some_iff t wf); eauto).
    rewrite epicycles_chain in Hrun by exact Hn. injection Hrun as <-.
    rewrite length_chainFrom. lia.
Qed.

(** X16: the frame of the first variant asks for five octaves and draws six: it
    pushes the pencil of six octaves of the square wave, keeping 256
    points. *)
Theorem v1_draw_six (fuel : nat) (st : V1.State) :
  6 <= fuel ->
  exists epis tip,
    V1.epicycles fuel (V1.time st) 5 V1.squareWave = Some epis /\
    length epis = 6 /\
    pencil fuel (V1.time st) 6 squareWave = Some tip /\
    V1.draw fuel st
    = Some {| V1.time := incrementTime (V1.time st) DT;
              V1.trajectory := pushTrajectory 256 tip (V1.trajectory st) |}.
Proof.
  intros Hfuel.
  assert (V1.epicycles fuel (V1.time st) 5 V1.squareWave
          = epicycles fuel (V1.time st) 6 squareWave) as Hshift
    by apply v1_epicyclesRecurse_shift.
  assert (V1.draw fuel st
          = (tip ← pencil fuel (V1.time st) 6 squareWave;
             Some {| V1.time := incrementTime (V1.time st) DT;
                     V1.trajectory := pushTrajectory 256 tip (V1.trajectory st) |}))
    as Hdraw.
  { unfold V1.draw, pencil. rewrite Hshift.
    destruct (epicycles fuel (V1.time st) 6 squareWave) as [epis |];
      [simpl | reflexivity].
    destruct (radialLines (V1.time st) epis) as [radials |];
      [simpl | reflexivity].
    now destruct (js_index radials (Z.of_nat (length radials) - 1)). }
  rewrite Hdraw, Hshift, pencil_tip, epicycles_chain by lia.
  eexists _, _. split; [reflexivity |].
  split; [now rewrite length_chainFrom |]. split; reflexivity.
Qed.

Lemma v1_draw_six_witness :
  exists epis,
    V1.epicycles 6 0%R 5 V1.squareWave = Some epis /\ length epis = 6.
Proof.
  destruct (v1_draw_six 6 {| V1.time := 0%R; V1.trajectory := [] |} ltac:(lia))
    as (epis & tip & Hepis & Hlen & _).
  exists epis. split; [exact Hepis | exact Hlen].
Defined.

(** ** The class-based sketch *)

Section IndexBuild.

Variables (time : R) (octaves : Z) (fn : R -> R).

Lemma index_buildStep (built : list Index.Epicycle) (c : p5.Vector)
    (tr : Trajectory) (o : nat) :
  let epi := Index.new_Epicycle (Some c) (Some (4 / (fn (INR o) * PI))%R)
               (Some (fn (INR o))) None in
  Index.buildStep time octaves fn (built, c, tr) o
  = (built ++ [epi], Index.getRadialPhasePoint time epi,
     if (Z.of_nat o =? octaves - 1)%Z
     then pushTrajectory 256 (Index.getRadialPhasePoint time epi) tr
     else tr).
Proof. reflexivity. Qed.

(** The loop from index [o] on, with [m] turns left. *)
Lemma index_build_loop (m : nat) :
  forall (o : nat) (built : list Index.Epicycle) (c : p5.Vector)
         (tr : Trajectory),
    o + m = Z.to_nat octaves ->
    let res := foldl (Index.buildStep time octaves fn) (built, c, tr) (seq o m) in
    length res.1.1 = length built + m /\
    (m = 0 -> res = (built, c, tr)) /\
    (1 <= m ->
       exists e, last res.1.1 = Some e /\
                 res.1.2 = Index.getRadialPhasePoint time e /\
                 res.2 = pushTrajectory 256 res.1.2 tr).
Proof.
  induction m as [| m IH]; intros o built c tr Hlen res.
  - subst res. simpl. split; [lia |]. split; [reflexivity | lia].
  - subst res. cbn [seq foldl]. rewrite index_buildStep. cbv zeta.
    set (epi := Index.new_Epicycle _ _ _ _).
    destruct (Z.eqb_spec (Z.of_nat o) (octaves - 1)) as [Hlast | Hmid].
    + assert (m = 0) as -> by lia. cbn [seq foldl fst snd].
      split; [rewrite length_app; simpl; lia |]. split; [lia |].
      intros _. exists epi. rewrite last_snoc. repeat split.
    + destruct (IH (S o) (built ++ [epi]) (Index.getRadialPhasePoint time epi)
                  tr ltac:(lia)) as (Hcount & _ & Hpush).
      split; [rewrite Hcount, length_app; simpl; lia |].
      split; [lia |]. intros _. apply Hpush. lia.
Qed.

Hypothesis fn_nonzero : forall i : nat, fn (INR i) <> 0%R.

(** An epicycle built in the loop is the epicycle of [sketch.ts] for the
    wave of its harmonic index. *)
Lemma index_new_Epicycle (c : p5.Vector) (i : nat) :
  toSketch (Index.new_Epicycle (Some c) (Some (4 / (fn (INR i) * PI))%R)
              (Some (fn (INR i))) None)
  = {| pos := c; wave := indexWave fn i |}.
Proof.
  pose proof (fn_nonzero i) as Hk. pose proof PI_neq0 as Hpi.
  assert (4 / (fn (INR i) * PI) <> 0)%R as Hradius.
  { unfold Rdiv. apply Rmult_integral_contrapositive_currified; [lra |].
    apply Rinv_neq_0_compat. now apply Rmult_integral_contrapositive_currified. }
  unfold toSketch, Index.new_Epicycle, Index.truthy, indexWave.
  cbn [Index.pos Index.r Index.k Index.phi].
  destruct (Req_dec_T (4 / (fn (INR i) * PI)) 0) as [Hz | _]; [tauto |].
  destruct (Req_dec_T (fn (INR i)) 0) as [Hz | _]; [tauto |].
  reflexivity.
Qed.

Lemma index_getRadialPhasePoint (e : Index.Epicycle) :
  Index.getRadialPhasePoint time e = nextEpicylePos time (toSketch e).
Proof.
  unfold Index.getRadialPhasePoint, nextEpicylePos, toSketch.
  cbn [pos wave amplitude angularVelocity initialOffset].
  replace (Index.k e * time + Index.phi e)%R
    with (time * Index.k e + Index.phi e)%R by ring.
  f_equal; ring.
Qed.

(** The loop builds the chain of [sketch.ts]. *)
Lemma index_build_chain (m : nat) :
  forall (o : nat) (built : list Index.Epicycle) (c : p5.Vector)
         (tr : Trajectory),
    let res := foldl (Index.buildStep time octaves fn) (built, c, tr) (seq o m) in
    toSketch <$> res.1.1
    = (toSketch <$> built) ++ chainFrom time (indexWave fn) c o m /\
    res.1.2 = tipFrom time (indexWave fn) c o m.
Proof.
  induction m as [| m IH]; intros o built c tr res.
  - subst res. simpl. now rewrite app_nil_r.
  - subst res. cbn [seq foldl]. rewrite index_buildStep. cbv zeta.
    set (epi := Index.new_Epicycle _ _ _ _).
    set (tr1 := if (Z.of_nat o =? octaves - 1)%Z then _ else _).
    destruct (IH (S o) (built ++ [epi]) (Index.getRadialPhasePoint time epi) tr1)
      as [Hchain Htip].
    assert (toSketch epi = {| pos := c; wave := indexWave fn o |}) as Hepi
      by apply index_new_Epicycle.
    rewrite Hchain, Htip, index_getRadialPhasePoint, Hepi.
    rewrite fmap_app, <- app_assoc. cbn [fmap list_fmap app]. rewrite Hepi.
    split; reflexivity.
Qed.

End IndexBuild.

(** X17: [buildEpicycles] returns one epicycle per octave asked; for a count
    that is not positive it returns none and leaves the trajectory as it
    is. *)
Theorem index_buildEpicycles_count (time : R) (octaves : Z) (fn : R -> R)
    (tr : Trajectory) :
  length (Index.buildEpicycles time octaves fn tr).1 = Z.to_nat octaves /\
  ((octaves <= 0)%Z -> Index.buildEpicycles time octaves fn tr = ([], tr)).
Proof.
  unfold Index.buildEpicycles.
  pose proof (index_build_loop time octaves fn (Z.to_nat octaves) 0 []
                (p5.createVector 0 0) tr eq_refl) as (Hcount & Hnone & _).
  cbv zeta in Hcount, Hnone.
  destruct (foldl _ _ _) as [[epis c] tr'] eqn:Hres. cbn [fst snd] in *.
  split; [exact Hcount |]. intros Hle.
  specialize (Hnone ltac:(lia)). now injection Hnone as -> _ ->.
Qed.

(** X18: with at least one octave [buildEpicycles] pushes one point on the
    trajectory, the radial phase point of the last epicycle it built, and
    keeps at most 256 points there. *)
Theorem index_buildEpicycles_push (time : R) (octaves : Z) (fn : R -> R)
    (tr : Trajectory) :
  (1 <= octaves)%Z ->
  exists e,
    last (Index.buildEpicycles time octaves fn tr).1 = Some e /\
    (Index.buildEpicycles time octaves fn tr).2
    = pushTrajectory 256 (Index.getRadialPhasePoint time e) tr /\
    (Index.buildEpicycles time octaves fn tr).2 !! 0
    = Some (Index.getRadialPhasePoint time e) /\
    (length tr <= 256 ->
     length (Index.buildEpicycles time octaves fn tr).2 <= 256).
Proof.
  intros Hoct. unfold Index.buildEpicycles.
  pose proof (index_build_loop time octaves fn (Z.to_nat octaves) 0 []
                (p5.createVector 0 0) tr eq_refl) as (_ & _ & Hpush).
  cbv zeta in Hpush.
  destruct (foldl _ _ _) as [[epis c] tr'] eqn:Hres. cbn [fst snd] in *.
  destruct (Hpush ltac:(lia)) as (e & Hlast & -> & ->).
  exists e. split; [exact Hlast |]. split; [reflexivity |]. split.
  - apply pushTrajectory_head. lia.
  - apply length_pushTrajectory.
Qed.

Lemma index_buildEpicycles_push_witness :
  exists e,
    last (Index.buildEpicycles 0 3 Index.triangleWaveKByIndex []).1 = Some e /\
    (Index.buildEpicycles 0 3 Index.triangleWaveKByIndex []).2
    = pushTrajectory 256 (Index.getRadialPhasePoint 0 e) [].
Proof.
  destruct (index_buildEpicycles_push 0%R 3 Index.triangleWaveKByIndex []
              ltac:(lia)) as (e & Hlast & Hpush & _).
  exists e. split; [exact Hlast | exact Hpush].
Defined.

Lemma index_fn_nonzero :
  (forall i : nat, Index.squareWaveKByIndex (INR i) <> 0%R) /\
  (forall i : nat, Index.triangleWaveKByIndex (INR i) <> 0%R).
Proof.
  split; intros i; pose proof (pos_INR i);
    unfold Index.squareWaveKByIndex, Index.triangleWaveKByIndex; lra.
Qed.

(** X19: the loop of [index.ts] and the recursion of [sketch.ts] build the same
    chain: for harmonic indices that are never zero, the epicycles of
    [buildEpicycles], read as centre, radius, [k] and phase, are those of
    [epicycles] for the waves of amplitude [4/(k pi) * SCALE], angular
    velocity [k] and offset 0, and the point pushed on the trajectory is
    the pencil of that chain. *)
Theorem index_refines_sketch (fuel : nat) (time : R) (octaves : Z)
    (fn : R -> R) (tr : Trajectory) :
  (forall i : nat, fn (INR i) <> 0%R) ->
  (0 <= octaves <= Z.of_nat fuel)%Z ->
  epicycles fuel time octaves (indexWave fn)
  = Some (toSketch <$> (Index.buildEpicycles time octaves fn tr).1) /\
  ((1 <= octaves)%Z ->
   exists tip,
     pencil fuel time octaves (indexWave fn) = Some tip /\
     (Index.buildEpicycles time octaves fn tr).2 = pushTrajectory 256 tip tr).
Proof.
  intros Hfn Hoct. unfold Index.buildEpicycles.
  pose proof (index_build_loop time octaves fn (Z.to_nat octaves) 0 []
                (p5.createVector 0 0) tr eq_refl) as (_ & _ & Hpush).
  pose proof (index_build_chain time octaves fn Hfn (Z.to_nat octaves) 0 []
                (p5.createVector 0 0) tr) as [Hchain Htip].
  cbv zeta in Hpush, Hchain, Htip.
  destruct (foldl _ _ _) as [[epis c] tr'] eqn:Hres. cbn [fst snd] in *.
  split.
  - rewrite epicycles_chain by exact Hoct. now rewrite Hchain.
  - intros Hone. destruct (Hpush ltac:(lia)) as (e & _ & _ & ->).
    rewrite pencil_tip by lia. eexists. split; [reflexivity |].
    now rewrite Htip.
Qed.

Lemma index_refines_sketch_witness :
  epicycles 5 1%R 5 (indexWave Index.squareWaveKByIndex)
  = Some (toSketch <$> (Index.buildEpicycles 1 5 Index.squareWaveKByIndex []).1).
Proof.
  exact (proj1 (index_refines_sketch 5 1%R 5 Index.squareWaveKByIndex []
                  (proj1 index_fn_nonzero) ltac:(lia))).
Defined.


Lemma index_buildEpicycles_tail (time : R) (octaves : Z) (fn : R -> R)
    (tr : Trajectory) :
  ((octaves <= 0)%Z -> (Index.buildEpicycles time octaves fn tr).2 = tr) /\
  ((1 <= octaves)%Z ->
   exists tip,
     (Index.buildEpicycles time octaves fn tr).2 = pushTrajectory 256 tip tr /\
     (Index.buildEpicycles time octaves fn tr).2 !! 0 = Some tip).
Proof.
  unfold Index.buildEpicycles.
  pose proof (index_build_loop time octaves fn (Z.to_nat octaves) 0 []
                (p5.createVector 0 0) tr eq_refl) as (_ & Hnone & Hpush).
  cbv zeta in Hnone, Hpush.
  destruct (foldl _ _ _) as [[epis c] tr'] eqn:Hres. cbn [fst snd] in *.
  split.
  - intros Hle. specialize (Hnone ltac:(lia)). now injection Hnone as _ _ ->.
  - intros Hone. destruct (Hpush ltac:(lia)) as (e & _ & _ & ->).
    exists c. split; [reflexivity |]. apply pushTrajectory_head. lia.
Qed.

Lemma index_draw_unfold (st : Index.State) (octaves : Z) (name : string) :
  exists fn,
    fn = (if String.eqb name "square"
          then Index.squareWaveKByIndex else Index.triangleWaveKByIndex) /\
    Index.draw st octaves name
    = (_ ← (Index.buildEpicycles (Index.time st) octaves fn
              (Index.trajectory st)).2 !! 0;
       Some {| Index.time :=
                 if Rlt_dec TWO_PI (Index.time st + Index.DT)
                 then (Index.time st + Index.DT - TWO_PI)%R
                 else (Index.time st + Index.DT)%R;
               Index.trajectory :=
                 (Index.buildEpicycles (Index.time st) octaves fn
                    (Index.trajectory st)).2 |}).
Proof.
  eexists. split; [reflexivity |]. unfold Index.draw.
  now destruct (Index.buildEpicycles _ _ _ _) as [epis tr'].
Qed.

(** X21: the frame of [index.ts] throws only when there is no octave to build
    and no point traced yet.  When it completes, a time in [0, 2 pi] stays
    there; with no octave the trajectory is left as it is, and otherwise
    one point is pushed on it whatever the radio says: unlike [sketch.ts],
    changing the waveform never empties the trajectory. *)
Theorem index_draw_spec (st : Index.State) (octaves : Z) (name : string) :
  (is_Some (Index.draw st octaves name)
   <-> (1 <= octaves)%Z \/ Index.trajectory st <> []) /\
  forall st', Index.draw st octaves name = Some st' ->
    ((0 <= Index.time st <= TWO_PI)%R -> (0 <= Index.time st' <= TWO_PI)%R) /\
    ((octaves <= 0)%Z -> Index.trajectory st' = Index.trajectory st) /\
    ((1 <= octaves)%Z ->
     exists tip,
       Index.trajectory st' = pushTrajectory 256 tip (Index.trajectory st)).
Proof.
  destruct (index_draw_unfold st octaves name) as (fn & _ & ->).
  pose proof (index_buildEpicycles_tail (Index.time st) octaves fn
                (Index.trajectory st)) as [Hnone Hsome].
  set (tr' := (Index.buildEpicycles (Index.time st) octaves fn
                 (Index.trajectory st)).2) in *.
  split.
  - split.
    + intros [st' Hrun].
      destruct (Z.le_gt_cases octaves 0) as [Hle | Hgt]; [right | left; lia].
      rewrite (Hnone Hle) in Hrun.
      destruct (Index.trajectory st); [discriminate | discriminate].
    + intros [Hone | Hne].
      * destruct (Hsome Hone) as (tip & -> & Hhead). rewrite Hhead.
        eexists. reflexivity.
      * destruct (Z.le_gt_cases octaves 0) as [Hle | Hgt].
        -- rewrite (Hnone Hle).
           destruct (Index.trajectory st); [tauto | eexists; reflexivity].
        -- destruct (Hsome ltac:(lia)) as (tip & -> & Hhead). rewrite Hhead.
           eexists. reflexivity.
  - intros st' Hrun.
    destruct (tr' !! 0) as [actual |]; [| discriminate].
    injection Hrun as <-. cbn [Index.time Index.trajectory].
    split; [| split].
    + intros Ht. pose proof PI2_1. unfold TWO_PI, Index.DT in *.
      destruct (Rlt_dec (2 * PI) (Index.time st + 0.025)); lra.
    + exact Hnone.
    + intros Hone. destruct (Hsome Hone) as (tip & Htip & _). eauto.
Qed.

Lemma index_draw_spec_witness :
  is_Some (Index.draw {| Index.time := 0%R; Index.trajectory := [] |} 3 "square").
Proof.
  apply (proj2 (proj1 (index_draw_spec
           {| Index.time := 0%R; Index.trajectory := [] |} 3 "square"))).
  left. lia.
Defined.

Lemma index_buildEpicycles_count_witness :
  Index.buildEpicycles 0 (-2) Index.squareWaveKByIndex [] = ([], []).
Proof.
  apply (proj2 (index_buildEpicycles_count 0%R (-2) Index.squareWaveKByIndex [])).
  lia.
Defined.

Lemma v1_epicycles_one_more_witness :
  is_Some (V1.epicycles 3 0%R (-1) squareWave).
Proof.
  apply (proj2 (proj1 (proj2 (v1_epicycles_one_more 3 0%R (-1) squareWave)))).
  lia.
Defined.

Lemma draw_completes_iff_witness : is_Some (draw 5 setup 5 "sawtooth").
Proof.
  apply (proj2 (draw_completes_iff 5 setup 5 "sawtooth")). lia.
Defined.

(** ** The pencil on the canvas *)

(** X22: the horizontal line of [drawProjectionLine] runs from the pencil to
    the abscissa [WF_TRANSLATE], where [draw] then moves the origin before
    it plots the waveform: the first vertex of the plot, at abscissa 0
    there, has the ordinate of the pencil, so the line ends where the plot
    starts. *)
Theorem projection_meets_waveform (fuel : nat) (st : State) (octaves : Z)
    (wf : string) :
  playable fuel (octaves, wf) ->
  exists tip st',
    pencil fuel (time st) octaves (waveForm wf) = Some tip /\
    draw fuel st octaves wf = Some st' /\
    drawProjectionLine tip
    = [stroke [192; 56; 87; 205]%Z;
       line (p5.x tip) (p5.y tip) WF_TRANSLATE (p5.y tip);
       fill [192; 56; 87; 205]%Z;
       circle WF_TRANSLATE (p5.y tip) 4%R] /\
    vertices (drawWaveForm (trajectory st')) !! 0 = Some (0%R, p5.y tip) /\
    vertices (drawTrajectory (trajectory st')) !! 0 = Some (p5.x tip, p5.y tip).
Proof.
  intros Hoct. unfold playable in Hoct. cbn [fst] in Hoct.
  rewrite draw_pencil, pencil_tip by exact Hoct.
  eexists _, _. split; [reflexivity |]. split; [reflexivity |].
  split; [reflexivity |]. cbn [trajectory].
  set (tip := tipFrom _ _ _ _ _).
  match goal with
  | |- context [pushTrajectory ?cap ?p ?tr] =>
      pose proof (pushTrajectory_head cap p tr
                    ltac:(unfold TRAJECTORY_MAX; lia)) as Hhead;
      destruct (pushTrajectory cap p tr) as [| first rest];
      [discriminate |]
  end.
  injection Hhead as ->. split; reflexivity.
Qed.

Lemma projection_meets_waveform_witness :
  exists tip st',
    draw 4 setup 4 "sin" = Some st' /\
    vertices (drawWaveForm (trajectory st')) !! 0 = Some (0%R, p5.y tip).
Proof.
  assert (playable 4 (4%Z, "sin")) as Hplay by (unfold playable; simpl; lia).
  destruct (projection_meets_waveform 4 setup 4 "sin" Hplay)
    as (tip & st' & _ & Hdraw & _ & Hfirst & _).
  exists tip, st'. split; [exact Hdraw | exact Hfirst].
Defined.

Lemma rot_bound (t : Time) (wf : WaveForm) (o : Octave) :
  (Rabs (rotX t wf o) <= Rabs (amplitude (wf o)))%R /\
  (Rabs (rotY t wf o) <= Rabs (amplitude (wf o)))%R.
Proof.
  unfold rotX, rotY.
  set (theta := (- (t * angularVelocity (wf o) + initialOffset (wf o)))%R).
  pose proof (COS_bound theta) as [Hc1 Hc2].
  pose proof (SIN_bound theta) as [Hs1 Hs2].
  pose proof (Rabs_pos (amplitude (wf o))) as Ha.
  rewrite !Rabs_mult. split.
  - rewrite <- (Rmult_1_r (Rabs (amplitude (wf o)))) at 2.
    apply Rmult_le_compat_l; [exact Ha |]. apply Rabs_le. lra.
  - rewrite <- (Rmult_1_r (Rabs (amplitude (wf o)))) at 2.
    apply Rmult_le_compat_l; [exact Ha |]. apply Rabs_le. lra.
Qed.

(** X23: the pencil never leaves the square whose half side is the sum of the
    sizes of the amplitudes of the octaves drawn. *)
Theorem pencil_within_amplitudes (fuel : nat) (t : Time) (n : Z)
    (wf : WaveForm) :
  (1 <= n <= Z.of_nat fuel)%Z ->
  let reach := sum_f_R0 (fun o => Rabs (amplitude (wf o))) (Z.to_nat n - 1) in
  exists tip,
    pencil fuel t n wf = Some tip /\
    (Rabs (p5.x tip) <= reach)%R /\ (Rabs (p5.y tip) <= reach)%R.
Proof.
  intros Hn reach. rewrite pencil_tip by exact Hn.
  eexists. split; [reflexivity |].
  replace (Z.to_nat n) with (S (Z.to_nat n - 1)) by lia.
  rewrite tipFrom_sum_x, tipFrom_sum_y. cbn [p5.x p5.y]. rewrite !Rplus_0_l.
  split.
  - eapply Rle_trans; [apply Rsum_abs |].
    apply sum_Rle. intros o _. apply rot_bound.
  - eapply Rle_trans; [apply Rsum_abs |].
    apply sum_Rle. intros o _. apply rot_bound.
Qed.

Lemma pencil_within_amplitudes_witness :
  exists tip,
    pencil 2 1%R 2 sawWave = Some tip /\
    (Rabs (p5.x tip)
     <= sum_f_R0 (fun o => Rabs (amplitude (sawWave o))) 1)%R.
Proof.
  destruct (pencil_within_amplitudes 2 1%R 2 sawWave ltac:(lia))
    as (tip & Htip & Hx & _).
  exists tip. split; [exact Htip | exact Hx].
Defined.
